(** * KeyHero: the timed rhythm session

    A shallow embedding of the timing core of the KeyHero rhythm game:

    - [Double]   : the arithmetic of doubles, where the code depends on it
    - [Scoring]  : src/game/scoring.ts  (RhythmScoring, GameState)
    - [Audio]    : src/audio/audioEngine.ts  (WebAudioEngine)
    - [Input]    : src/game/input.ts  (KeyboardInput)
    - [Chart]    : src/game/chart.ts  (getChartDuration)
    - [Loop]     : src/game/loop.ts  (GameLoop)

    Number model.  A TypeScript [number] that holds a time in seconds is
    embedded as a rational ([Q]), the exact value of the double;
    comparisons are the decidable ones of [Q], and equalities between
    computed times are stated with [==].  A [number] used as a counter or
    as a score is embedded as [Z].

    Where the code compares one difference of two times against a
    constant (the Judge, the miss scan, the end of the chart, the audio
    clock) the difference is taken exactly.  In [findNearestNote] the code
    instead compares a time against the rounded sums [songTime - 0.120] and
    [songTime + 0.120] and sorts by rounded distances; there rounding
    decides which note a press judges, and every operation is rounded as
    IEEE 754 binary64 does ([Double]). *)

From Stdlib Require Import ZArith QArith Qabs Qminmax Qpower Lqa Lia.
From Stdlib Require Import List Bool String Ascii ListSet Sorted.
Import ListNotations.

Local Open Scope Z_scope.

(** ** Comparisons of times, as booleans *)

Definition Qleb (x y : Q) : bool := Qle_bool x y.
Definition Qltb (x y : Q) : bool := negb (Qle_bool y x).

(** ** Arithmetic on doubles

    [round x] is the double nearest to [x], the one with the even
    significand when [x] lies half-way between two doubles: IEEE 754
    binary64 round-to-nearest-even, with a significand of 53 bits.  The
    exponent is not bounded.  A sum or difference of two doubles is a
    multiple of [2^-1074], so it is never rounded in the subnormal range
    and the lower bound of the exponent plays no part; a result beyond the
    largest double, where the code gets [Infinity], is outside the
    model. *)

Module Double.

(** The integer nearest to [y], the even one of the two when [y] lies
    half-way. *)
Definition nearestEven (y : Q) : Z :=
  let n := Qnum y in
  let d := Zpos (Qden y) in
  let q := n / d in
  let r := n mod d in
  match 2 * r ?= d with
  | Lt => q
  | Gt => q + 1
  | Eq => if Z.even q then q else q + 1
  end.

(** For [x > 0], the exponent [e] with [2^52 <= x / 2^e < 2^53]. *)
Definition exponent (x : Q) : Z :=
  let e1 := Z.log2 (Qnum x) - Z.log2 (Zpos (Qden x)) - 53 in
  if Qle_bool (2 ^ 53) (x / 2 ^ e1) then e1 + 1 else e1.

Definition round (x : Q) : Q :=
  if Qeq_bool x 0 then 0%Q
  else
    let e := exponent (Qabs x) in
    (inject_Z (nearestEven (x / 2 ^ e)) * 2 ^ e)%Q.

(** A decimal literal of the source text. *)
Definition lit (x : Q) : Q := round x.

(** [a + b] and [a - b] on doubles. *)
Definition add (a b : Q) : Q := round (a + b).
Definition sub (a b : Q) : Q := round (a - b).

(** The unit roundoff of binary64, [2^-53]: the relative error of one
    rounding is at most this. *)
Definition unitRoundoff : Q := 1 # 9007199254740992.

End Double.

(** ** src/types.ts : Note *)

Record Note : Type := mkNote {
  lane : Z;          (* 0-3 *)
  hitTime : Q;       (* seconds since song start *)
  hit : bool         (* [hit?: boolean]; an absent field is falsy *)
}.

Definition NoteChart : Type := list Note.

Definition setHit (n : Note) (b : bool) : Note :=
  mkNote (lane n) (hitTime n) b.

(** [chart[i]] for a numeric index: [undefined] ([None]) outside the
    array. *)
Definition index (c : NoteChart) (i : Z) : option Note :=
  if Z.ltb i 0 then None else nth_error c (Z.to_nat i).

(** ** src/game/scoring.ts *)

Module Scoring.

Inductive Rating : Type := PERFECT | GOOD | MISS.

Definition Rating_eqb (a b : Rating) : bool :=
  match a, b with
  | PERFECT, PERFECT | GOOD, GOOD | MISS, MISS => true
  | _, _ => false
  end.

Record HitResult : Type := mkHitResult {
  rating : Rating;
  scoreDelta : Z;
  timeDiff : Q
}.

Record GameStats : Type := mkGameStats {
  perfectCount : Z;
  goodCount : Z;
  missCount : Z;
  maxCombo : Z;
  currentCombo : Z
}.

(** RhythmScoring.evaluateHit *)
Definition evaluateHit (note : Note) (songTime : Q) : HitResult :=
  let timeDiff := Qabs (hitTime note - songTime) in
  if Qleb timeDiff 0.060 then mkHitResult PERFECT 100 timeDiff
  else if Qleb timeDiff 0.120 then mkHitResult GOOD 50 timeDiff
  else mkHitResult MISS 0 timeDiff.

(** The object state of class GameState. *)
Record GameState : Type := mkGameState {
  stats : GameStats;
  score : Z
}.

(** GameState.reset, which is also the state of a fresh instance. *)
Definition reset : GameState :=
  mkGameState (mkGameStats 0 0 0 0 0) 0.

(** Field updates on [GameStats] (assignments to [this.stats.f]). *)
Definition set_perfectCount (st : GameStats) (v : Z) : GameStats :=
  mkGameStats v (goodCount st) (missCount st) (maxCombo st) (currentCombo st).
Definition set_goodCount (st : GameStats) (v : Z) : GameStats :=
  mkGameStats (perfectCount st) v (missCount st) (maxCombo st) (currentCombo st).
Definition set_missCount (st : GameStats) (v : Z) : GameStats :=
  mkGameStats (perfectCount st) (goodCount st) v (maxCombo st) (currentCombo st).
Definition set_maxCombo (st : GameStats) (v : Z) : GameStats :=
  mkGameStats (perfectCount st) (goodCount st) (missCount st) v (currentCombo st).
Definition set_currentCombo (st : GameStats) (v : Z) : GameStats :=
  mkGameStats (perfectCount st) (goodCount st) (missCount st) (maxCombo st) v.

(** GameState.processHit *)
Definition processHit (g : GameState) (result : HitResult) : GameState :=
  let st := stats g in
  if Rating_eqb (rating result) MISS then
    let st := set_missCount st (missCount st + 1) in
    let st := set_currentCombo st 0 in
    mkGameState st (score g)
  else
    let st :=
      if Rating_eqb (rating result) PERFECT
      then set_perfectCount st (perfectCount st + 1)
      else set_goodCount st (goodCount st + 1) in
    let st := set_currentCombo st (currentCombo st + 1) in
    let st := set_maxCombo st (Z.max (maxCombo st) (currentCombo st)) in
    mkGameState st (score g + scoreDelta result).

Definition getStats (g : GameState) : GameStats := stats g.
Definition getScore (g : GameState) : Z := score g.
Definition getCombo (g : GameState) : Z := currentCombo (stats g).
Definition getMaxCombo (g : GameState) : Z := maxCombo (stats g).

(** GameState.getAccuracy *)
Definition getAccuracy (g : GameState) : Q :=
  let st := stats g in
  let total := perfectCount st + goodCount st + missCount st in
  if Z.eqb total 0 then 0%Q
  else
    let weightedScore := perfectCount st * 100 + goodCount st * 50 in
    let maxScore := total * 100 in
    ((inject_Z weightedScore / inject_Z maxScore) * 100)%Q.

Inductive Grade : Type := GradeS | GradeA | GradeB | GradeC | GradeD | GradeF.

(** GameState.getGrade *)
Definition getGrade (g : GameState) : Grade :=
  let accuracy := getAccuracy g in
  if Qleb 95 accuracy then GradeS
  else if Qleb 90 accuracy then GradeA
  else if Qleb 80 accuracy then GradeB
  else if Qleb 70 accuracy then GradeC
  else if Qleb 60 accuracy then GradeD
  else GradeF.

(** Folding a sequence of judgments into the accumulator. *)
Definition processHits (g : GameState) (rs : list HitResult) : GameState :=
  fold_left processHit rs g.

(** A judgment is consistent when a miss carries no points, as every
    result of [evaluateHit] does. *)
Definition missScoresNothing (r : HitResult) : Prop :=
  rating r = MISS -> scoreDelta r = 0.

Definition sumDeltas (rs : list HitResult) : Z :=
  fold_right (fun r acc => scoreDelta r + acc) 0 rs.

(** The scripted sequence Perfect, Perfect, Miss, Good, Perfect with the
    Judge's score deltas. *)
Definition scripted (d1 d2 d3 d4 d5 : Q) : list HitResult :=
  [ mkHitResult PERFECT 100 d1; mkHitResult PERFECT 100 d2;
    mkHitResult MISS 0 d3; mkHitResult GOOD 50 d4;
    mkHitResult PERFECT 100 d5 ].

(** The combo counters of a state are in range. *)
Definition comboBounded (g : GameState) : Prop :=
  0 <= currentCombo (stats g) <= maxCombo (stats g).

End Scoring.

(** ** src/audio/audioEngine.ts *)

Module Audio.

(** The platform's AudioContext, as far as the engine observes it: the
    device clock [currentTime], in seconds, and whether the context is
    suspended.  The device advances [currentTime] on its own. *)
Record AudioContext : Type := mkAudioContext {
  currentTime : Q;
  suspended : bool
}.

(** The object state of class WebAudioEngine.  The source and gain nodes
    are kept as presence flags ([null] is [false]). *)
Record WebAudioEngine : Type := mkEngine {
  audioContext : option AudioContext;
  sourceNode : bool;
  gainNode : bool;
  songStartTime : Q;
  calibrationOffset : Q;
  isPlaying : bool;
  isPaused : bool;
  pauseStartTime : Q;
  totalPausedTime : Q
}.

(** A freshly constructed engine (the field initialisers; the constructor
    only fills the configuration). *)
Definition new : WebAudioEngine :=
  mkEngine None false false 0 0 false false 0 0.

(** WebAudioEngine.stop *)
Definition stop (e : WebAudioEngine) : WebAudioEngine :=
  mkEngine None false false
           0 (calibrationOffset e) false false 0 0.

(** WebAudioEngine.start; [ctx] is the context that [new AudioContext]
    returns.  The promise is modelled as resolving at once. *)
Definition start (ctx : AudioContext) (e : WebAudioEngine) : WebAudioEngine :=
  let e := stop e in
  mkEngine (Some ctx) true true
           (currentTime ctx) (calibrationOffset e) true false
           (pauseStartTime e) 0.

(** WebAudioEngine.getSongTime *)
Definition getSongTime (e : WebAudioEngine) : Q :=
  match audioContext e with
  | None => 0
  | Some ctx =>
      if negb (isPlaying e) then 0
      else
        let now := currentTime ctx in
        let elapsed := now - songStartTime e in
        let calibrated := elapsed - totalPausedTime e - calibrationOffset e in
        Qmax 0 calibrated
  end%Q.

(** WebAudioEngine.setOffset *)
Definition setOffset (offset : Q) (e : WebAudioEngine) : WebAudioEngine :=
  mkEngine (audioContext e) (sourceNode e) (gainNode e)
           (songStartTime e) offset (isPlaying e) (isPaused e)
           (pauseStartTime e) (totalPausedTime e).

(** WebAudioEngine.pause *)
Definition pause (e : WebAudioEngine) : WebAudioEngine :=
  match audioContext e with
  | None => e
  | Some ctx =>
      if negb (isPlaying e) || isPaused e then e
      else
        mkEngine (Some (mkAudioContext (currentTime ctx) true))
                 (sourceNode e) (gainNode e)
                 (songStartTime e) (calibrationOffset e) (isPlaying e) true
                 (currentTime ctx) (totalPausedTime e)
  end.

(** WebAudioEngine.resume.  The awaited [audioContext.resume()] is
    modelled as completing at once; the clock is read after it. *)
Definition resume (e : WebAudioEngine) : WebAudioEngine :=
  match audioContext e with
  | None => e
  | Some ctx =>
      if negb (isPaused e) then e
      else
        let pauseDuration := (currentTime ctx - pauseStartTime e)%Q in
        mkEngine (Some (mkAudioContext (currentTime ctx) false))
                 (sourceNode e) (gainNode e)
                 (songStartTime e) (calibrationOffset e) (isPlaying e) false
                 (pauseStartTime e) (totalPausedTime e + pauseDuration)%Q
  end.

(** The [onended] handler that [start] installs on the source node. *)
Definition onended (e : WebAudioEngine) : WebAudioEngine :=
  if isPlaying e && negb (isPaused e) then
    mkEngine (audioContext e) (sourceNode e) (gainNode e)
             (songStartTime e) (calibrationOffset e) false (isPaused e)
             (pauseStartTime e) (totalPausedTime e)
  else e.

Definition isPlayingState (e : WebAudioEngine) : bool := isPlaying e.
Definition isPausedState (e : WebAudioEngine) : bool := isPaused e.

(** The device clock moving on by [d] seconds.  No assumption is made on
    how far the clock moves while the context is suspended. *)
Definition advance (d : Q) (e : WebAudioEngine) : WebAudioEngine :=
  match audioContext e with
  | None => e
  | Some ctx =>
      mkEngine (Some (mkAudioContext (currentTime ctx + d)%Q (suspended ctx)))
               (sourceNode e) (gainNode e)
               (songStartTime e) (calibrationOffset e) (isPlaying e)
               (isPaused e) (pauseStartTime e) (totalPausedTime e)
  end.

(** The calls a client can make on an engine, and the two things the
    platform does to it. *)
Inductive Op : Type :=
| OpStart (ctx : AudioContext)
| OpStop
| OpSetOffset (offset : Q)
| OpPause
| OpResume
| OpEnded
| OpAdvance (d : Q).

Definition apply (e : WebAudioEngine) (o : Op) : WebAudioEngine :=
  match o with
  | OpStart ctx => start ctx e
  | OpStop => stop e
  | OpSetOffset x => setOffset x e
  | OpPause => pause e
  | OpResume => resume e
  | OpEnded => onended e
  | OpAdvance d => advance d e
  end.


End Audio.

(** ** src/game/input.ts : KeyboardInput *)

Module Input.

(** [String.prototype.toLowerCase], on the ASCII letters. *)
Definition lowerAscii (c : ascii) : ascii :=
  let n := nat_of_ascii c in
  if (Nat.leb 65 n && Nat.leb n 90)%bool then ascii_of_nat (n + 32) else c.

Fixpoint toLowerCase (s : string) : string :=
  match s with
  | EmptyString => EmptyString
  | String c rest => String (lowerAscii c) (toLowerCase rest)
  end.

(** The object state of class KeyboardInput: the [Set<string>] of held
    keys.  The key-to-lane table is a constant of the class. *)
Record KeyboardInput : Type := mkInput {
  heldKeys : set string
}.

Definition new : KeyboardInput := mkInput (empty_set string).

Definition keyToLane (k : string) : option Z :=
  if String.eqb k "a" then Some 0
  else if String.eqb k "s" then Some 1
  else if String.eqb k "d" then Some 2
  else if String.eqb k "f" then Some 3
  else None.

Definition onKeyDown (i : KeyboardInput) (key : string) : KeyboardInput :=
  mkInput (set_add string_dec (toLowerCase key) (heldKeys i)).

Definition onKeyUp (i : KeyboardInput) (key : string) : KeyboardInput :=
  mkInput (set_remove string_dec (toLowerCase key) (heldKeys i)).

(** [undefined] is [None]. *)
Definition getLane (key : string) : option Z :=
  keyToLane (toLowerCase key).

Definition isKeyPressed (i : KeyboardInput) (key : string) : bool :=
  set_mem string_dec (toLowerCase key) (heldKeys i).

End Input.

(** ** src/game/chart.ts *)

Module Chart.

(** getChartDuration *)
Definition getChartDuration (chart : NoteChart) : Q :=
  if Nat.eqb (List.length chart) 0 then 0
  else
    match index chart (Z.of_nat (List.length chart) - 1) with
    | None => 0   (* not reached: the index is in range *)
    | Some lastNote => (hitTime lastNote + 2.0)%Q
    end.

End Chart.

(** ** src/game/loop.ts : GameLoop *)

Module Loop.

Import Scoring.

(** The calls the loop makes on its collaborators (renderer, sound
    effects, end screen), recorded in the order they are made. *)
Inductive Effect : Type :=
| Clear
| DrawLanes
| DrawHitLine
| DrawNotes (notes : NoteChart) (songTime : Q)
| DrawScore (score combo : Z)
| DrawFeedback (feedback : option Rating)
| SetShake (intensity : Z)
| PlayHit
| PlayMiss
| PlayComboChime (combo : Z)
| EndScreenShow (stats : GameStats) (score : Z) (accuracy : Q) (grade : Grade)
| EndScreenHide.

(** The object state of class GameLoop together with the objects it was
    constructed with.  [animationFrameId] and [feedbackTimeout] record
    whether a handle is stored ([null] is [false]); [currentFeedback] is
    [None] for the empty string. *)
Record GameLoop : Type := mkLoop {
  isRunning : bool;
  animationFrameId : bool;
  feedbackTimeout : bool;
  currentFeedback : option Rating;
  chartDuration : Q;
  lastComboMilestone : Z;
  audioEngine : Audio.WebAudioEngine;
  input : Input.KeyboardInput;
  gameState : GameState;
  chart : NoteChart;
  effects : list Effect
}.

Definition set_isRunning (v : bool) (s : GameLoop) : GameLoop :=
  mkLoop v (animationFrameId s) (feedbackTimeout s) (currentFeedback s)
         (chartDuration s) (lastComboMilestone s) (audioEngine s) (input s)
         (gameState s) (chart s) (effects s).
Definition set_animationFrameId (v : bool) (s : GameLoop) : GameLoop :=
  mkLoop (isRunning s) v (feedbackTimeout s) (currentFeedback s)
         (chartDuration s) (lastComboMilestone s) (audioEngine s) (input s)
         (gameState s) (chart s) (effects s).
Definition set_feedbackTimeout (v : bool) (s : GameLoop) : GameLoop :=
  mkLoop (isRunning s) (animationFrameId s) v (currentFeedback s)
         (chartDuration s) (lastComboMilestone s) (audioEngine s) (input s)
         (gameState s) (chart s) (effects s).
Definition set_currentFeedback (v : option Rating) (s : GameLoop) : GameLoop :=
  mkLoop (isRunning s) (animationFrameId s) (feedbackTimeout s) v
         (chartDuration s) (lastComboMilestone s) (audioEngine s) (input s)
         (gameState s) (chart s) (effects s).
Definition set_lastComboMilestone (v : Z) (s : GameLoop) : GameLoop :=
  mkLoop (isRunning s) (animationFrameId s) (feedbackTimeout s)
         (currentFeedback s) (chartDuration s) v (audioEngine s) (input s)
         (gameState s) (chart s) (effects s).
Definition set_audioEngine (v : Audio.WebAudioEngine) (s : GameLoop) : GameLoop :=
  mkLoop (isRunning s) (animationFrameId s) (feedbackTimeout s)
         (currentFeedback s) (chartDuration s) (lastComboMilestone s) v
         (input s) (gameState s) (chart s) (effects s).
Definition set_input (v : Input.KeyboardInput) (s : GameLoop) : GameLoop :=
  mkLoop (isRunning s) (animationFrameId s) (feedbackTimeout s)
         (currentFeedback s) (chartDuration s) (lastComboMilestone s)
         (audioEngine s) v (gameState s) (chart s) (effects s).
Definition set_gameState (v : GameState) (s : GameLoop) : GameLoop :=
  mkLoop (isRunning s) (animationFrameId s) (feedbackTimeout s)
         (currentFeedback s) (chartDuration s) (lastComboMilestone s)
         (audioEngine s) (input s) v (chart s) (effects s).
Definition set_chart (v : NoteChart) (s : GameLoop) : GameLoop :=
  mkLoop (isRunning s) (animationFrameId s) (feedbackTimeout s)
         (currentFeedback s) (chartDuration s) (lastComboMilestone s)
         (audioEngine s) (input s) (gameState s) v (effects s).
Definition set_effects (v : list Effect) (s : GameLoop) : GameLoop :=
  mkLoop (isRunning s) (animationFrameId s) (feedbackTimeout s)
         (currentFeedback s) (chartDuration s) (lastComboMilestone s)
         (audioEngine s) (input s) (gameState s) (chart s) v.

(** What a JavaScript call can end in besides a value. *)
Inductive Completion (A : Type) : Type :=
| Normal (a : A)
| ThrowTypeError.
Arguments Normal {A} a.
Arguments ThrowTypeError {A}.

(** The constructor.  [this.chart[this.chart.length - 1]] is [undefined]
    for the empty array, and reading [.hitTime] of it throws. *)
Definition new (audioEngine : Audio.WebAudioEngine)
    (input : Input.KeyboardInput) (gameState : GameState)
    (chart : NoteChart) : Completion GameLoop :=
  match index chart (Z.of_nat (List.length chart) - 1) with
  | None => ThrowTypeError
  | Some lastNote =>
      Normal (mkLoop false false false None (hitTime lastNote + 2.0)%Q 0
                     audioEngine input gameState chart [])
  end.

(** *** The methods, as state transformers *)

Definition M (A : Type) : Type := GameLoop -> A * GameLoop.

Definition ret {A : Type} (a : A) : M A := fun s => (a, s).

Definition bind {A B : Type} (m : M A) (k : A -> M B) : M B :=
  fun s => let r := m s in k (fst r) (snd r).

Definition get {A : Type} (f : GameLoop -> A) : M A := fun s => (f s, s).

Definition modify (f : GameLoop -> GameLoop) : M unit := fun s => (tt, f s).

Definition exec {A : Type} (m : M A) (s : GameLoop) : GameLoop := snd (m s).

Declare Scope loop_scope.
Delimit Scope loop_scope with loop.
Notation "x <- m ;; k" := (bind m (fun x => k))
  (at level 61, m at next level, right associativity) : loop_scope.
Notation "m ;; k" := (bind m (fun _ => k))
  (at level 61, right associativity) : loop_scope.
Local Open Scope loop_scope.

Definition emit (e : Effect) : M unit :=
  modify (fun s => set_effects (effects s ++ [e]) s).

(** [note.hit = true] on the note at index [i] of the chart. *)
Fixpoint markHit (i : nat) (c : NoteChart) : NoteChart :=
  match c, i with
  | [], _ => []
  | n :: rest, O => setHit n true :: rest
  | n :: rest, S j => n :: markHit j rest
  end.

(** GameLoop.showFeedback: the pending timer, if any, is replaced. *)
Definition showFeedback (feedback : Rating) : M unit :=
  modify (set_currentFeedback (Some feedback)) ;;
  modify (set_feedbackTimeout true).

(** The callback that [showFeedback] hands to [setTimeout]. *)
Definition feedbackTimerFired : M unit :=
  modify (set_currentFeedback None).

(** GameLoop.endGame (console output left out). *)
Definition endGame : M unit :=
  modify (set_isRunning false) ;;
  stats <- get (fun s => getStats (gameState s)) ;;
  score <- get (fun s => getScore (gameState s)) ;;
  accuracy <- get (fun s => getAccuracy (gameState s)) ;;
  grade <- get (fun s => getGrade (gameState s)) ;;
  emit (EndScreenShow stats score accuracy grade).

(** The body of the [forEach] callback of GameLoop.checkMissedNotes,
    for the note at index [i]. *)
Definition checkMissedNote (songTime : Q) (i : nat) : M unit :=
  note <- get (fun s => nth_error (chart s) i) ;;
  match note with
  | None => ret tt
  | Some note =>
      if hit note then ret tt
      else
        let timeDiff := (hitTime note - songTime)%Q in
        if Qltb timeDiff (-0.120) then
          let result := evaluateHit note songTime in
          modify (fun s => set_gameState (processHit (gameState s) result) s) ;;
          modify (fun s => set_chart (markHit i (chart s)) s) ;;
          showFeedback (rating result) ;;
          if Rating_eqb (rating result) MISS then
            emit (SetShake 5) ;;
            emit PlayMiss
          else ret tt
        else ret tt
  end.

Fixpoint forEachIndex (idxs : list nat) (body : nat -> M unit) : M unit :=
  match idxs with
  | [] => ret tt
  | i :: rest => body i ;; forEachIndex rest body
  end.

(** GameLoop.checkMissedNotes *)
Definition checkMissedNotes (songTime : Q) : M unit :=
  n <- get (fun s => List.length (chart s)) ;;
  forEachIndex (seq 0 n) (checkMissedNote songTime).

(** [Array.prototype.sort] with a comparator: a stable sort in which [a]
    comes before [b] when [cmp a b] is negative. *)
Fixpoint insertBy {A : Type} (cmp : A -> A -> Q) (x : A) (l : list A) : list A :=
  match l with
  | [] => [x]
  | y :: rest =>
      if Qleb (cmp x y) 0 then x :: y :: rest
      else y :: insertBy cmp x rest
  end.

Definition sortBy {A : Type} (cmp : A -> A -> Q) (l : list A) : list A :=
  fold_right (insertBy cmp) [] l.

(** The comparator [(a, b) => key(a) - key(b)], on doubles. *)
Definition byKey {A : Type} (key : A -> Q) (a b : A) : Q :=
  Double.sub (key a) (key b).

(** The notes of a chart paired with their positions: the position
    stands for the identity of the note object. *)
Definition indexed (c : NoteChart) : list (nat * Note) :=
  combine (seq 0 (List.length c)) c.

(** The filter predicate of GameLoop.findNearestNote.  The two bounds
    [songTime - 0.120] and [songTime + 0.120] are doubles: the sums are
    rounded before the comparison. *)
Definition inWindow (lane' : Z) (songTime : Q) (note : Note) : bool :=
  Z.eqb (lane note) lane' &&
  negb (hit note) &&
  Qleb (Double.sub songTime (Double.lit 0.120)) (hitTime note) &&
  Qleb (hitTime note) (Double.add songTime (Double.lit 0.120)).

(** [Math.abs(note.hitTime - songTime)], the sort key of
    GameLoop.findNearestNote. *)
Definition distance (songTime : Q) (note : Note) : Q :=
  Qabs (Double.sub (hitTime note) songTime).

(** GameLoop.findNearestNote; [null] is [None]. *)
Definition findNearestNote (c : NoteChart) (lane' : Z) (songTime : Q)
  : option (nat * Note) :=
  let notesInLane := filter (fun p => inWindow lane' songTime (snd p)) (indexed c) in
  match notesInLane with
  | [] => None
  | _ =>
      let sorted :=
        sortBy (fun a b => Double.sub (Qabs (Double.sub (hitTime (snd a)) songTime))
                                      (Qabs (Double.sub (hitTime (snd b)) songTime)))
               notesInLane in
      hd_error sorted
  end.

Definition milestones : list Z := [10; 20; 50; 100].

(** The [for ... of] loop of GameLoop.checkComboMilestone, with its
    [break]. *)
Fixpoint milestoneLoop (ms : list Z) (combo : Z) : M unit :=
  match ms with
  | [] => ret tt
  | milestone :: rest =>
      last <- get lastComboMilestone ;;
      if Z.eqb combo milestone && Z.ltb last milestone then
        emit (PlayComboChime combo) ;;
        modify (set_lastComboMilestone milestone)
      else milestoneLoop rest combo
  end.

(** GameLoop.checkComboMilestone *)
Definition checkComboMilestone (combo : Z) : M unit :=
  milestoneLoop milestones combo ;;
  if Z.eqb combo 0 then modify (set_lastComboMilestone 0) else ret tt.

(** GameLoop.handleKeyPress *)
Definition handleKeyPress (key : string) : M unit :=
  running <- get isRunning ;;
  if negb running then ret tt else
  pressed <- get (fun s => Input.isKeyPressed (input s) key) ;;
  if pressed then ret tt else
  modify (fun s => set_input (Input.onKeyDown (input s) key) s) ;;
  match Input.getLane key with
  | None => ret tt
  | Some lane =>
      songTime <- get (fun s => Audio.getSongTime (audioEngine s)) ;;
      found <- get (fun s => findNearestNote (chart s) lane songTime) ;;
      match found with
      | None => ret tt
      | Some (i, note) =>
          if hit note then ret tt
          else
            let result := evaluateHit note songTime in
            modify (fun s => set_gameState (processHit (gameState s) result) s) ;;
            modify (fun s => set_chart (markHit i (chart s)) s) ;;
            showFeedback (rating result) ;;
            if Rating_eqb (rating result) MISS then
              emit (SetShake 5) ;;
              emit PlayMiss
            else
              emit PlayHit ;;
              currentCombo <- get (fun s => getCombo (gameState s)) ;;
              checkComboMilestone currentCombo
      end
  end.

(** GameLoop.handleKeyUp *)
Definition handleKeyUp (key : string) : M unit :=
  modify (fun s => set_input (Input.onKeyUp (input s) key) s).

(** GameLoop.loop, one animation frame. *)
Definition loop : M unit :=
  running <- get isRunning ;;
  if negb running then ret tt else
  songTime <- get (fun s => Audio.getSongTime (audioEngine s)) ;;
  over <- get (fun s => Qltb (chartDuration s) songTime) ;;
  if over then endGame
  else
    emit Clear ;;
    emit DrawLanes ;;
    emit DrawHitLine ;;
    notes <- get chart ;;
    emit (DrawNotes notes songTime) ;;
    score <- get (fun s => getScore (gameState s)) ;;
    combo <- get (fun s => getCombo (gameState s)) ;;
    emit (DrawScore score combo) ;;
    feedback <- get currentFeedback ;;
    emit (DrawFeedback feedback) ;;
    checkMissedNotes songTime ;;
    modify (set_animationFrameId true).

(** GameLoop.start; the promise of the engine resolves at once. *)
Definition start (ctx : Audio.AudioContext) : M unit :=
  modify (fun s => set_audioEngine (Audio.start ctx (audioEngine s)) s) ;;
  modify (set_isRunning true) ;;
  loop.

(** GameLoop.stop *)
Definition stop : M unit :=
  modify (set_isRunning false) ;;
  modify (fun s => set_audioEngine (Audio.stop (audioEngine s)) s) ;;
  modify (set_animationFrameId false) ;;
  modify (set_feedbackTimeout false).

(** GameLoop.reset *)
Definition reset : M unit :=
  modify (set_gameState Scoring.reset) ;;
  modify (set_lastComboMilestone 0) ;;
  modify (set_currentFeedback None) ;;
  modify (set_feedbackTimeout false) ;;
  modify (fun s => set_chart (map (fun n => setHit n false) (chart s)) s) ;;
  emit EndScreenHide.

(** *** A session as a sequence of events

    Everything runs on one thread: between two events nothing else
    touches the state. *)
Inductive Event : Type :=
| Advance (d : Q)          (* the device clock moves on by [d] *)
| Frame                    (* [loop] runs: the animation-frame callback *)
| KeyDown (key : string)
| KeyUp (key : string)
| FeedbackTimer            (* the feedback timeout, if one is set, fires *)
| SongEnded.               (* the source node reports its end *)

Definition step (s : GameLoop) (e : Event) : GameLoop :=
  match e with
  | Advance d => set_audioEngine (Audio.advance d (audioEngine s)) s
  | Frame => exec loop s
  | KeyDown key => exec (handleKeyPress key) s
  | KeyUp key => exec (handleKeyUp key) s
  | FeedbackTimer =>
      if feedbackTimeout s then exec feedbackTimerFired s else s
  | SongEnded => set_audioEngine (Audio.onended (audioEngine s)) s
  end.

Definition run (s : GameLoop) (es : list Event) : GameLoop :=
  fold_left step es s.

(** Derived observations used in the statements below. *)

Definition judgedCount (c : NoteChart) : Z :=
  Z.of_nat (List.length (filter hit c)).

Definition judgments (g : GameState) : Z :=
  perfectCount (stats g) + goodCount (stats g) + missCount (stats g).

Definition allJudged (c : NoteChart) : bool := forallb hit c.

Fixpoint chimes (es : list Effect) : list Z :=
  match es with
  | [] => []
  | PlayComboChime c :: rest => c :: chimes rest
  | _ :: rest => chimes rest
  end.

(** The judged flag as a latch: between two charts of a session the
    notes keep their lane and time, and a set flag stays set. *)
Definition noteLatch (n n' : Note) : Prop :=
  lane n' = lane n /\ hitTime n' = hitTime n /\
  (hit n = true -> hit n' = true).

Definition chartLatch (c c' : NoteChart) : Prop := Forall2 noteLatch c c'.

(** Every judgment folded into the accumulator belongs to one judged
    note, and the other way round. *)
Definition accounted (s : GameLoop) : Prop :=
  judgments (gameState s) = judgedCount (chart s).

(** What every event of a session maintains from a state [s] to a later
    state [s']. *)
Definition advances (s s' : GameLoop) : Prop :=
  chartLatch (chart s) (chart s') /\
  chartDuration s' = chartDuration s /\
  judgments (gameState s') - judgments (gameState s)
    = judgedCount (chart s') - judgedCount (chart s) /\
  (comboBounded (gameState s) ->
     comboBounded (gameState s') /\
     lastComboMilestone s <= lastComboMilestone s').

(** The condition under which the miss scan judges a note at song time
    [t]. *)
Definition late (t : Q) (n : Note) : Prop := (hitTime n - t < -0.120)%Q.



(** Sample sessions for the concrete runs below: the loop that the
    constructor returns for a chart, on a fresh engine, input handler and
    accumulator (an idle loop stands in where the constructor throws), and
    that loop after [start]. *)
Definition ctx0 : Audio.AudioContext := Audio.mkAudioContext 0 false.

Definition fresh (c : NoteChart) : GameLoop :=
  match new Audio.new Input.new Scoring.reset c with
  | Normal s => s
  | ThrowTypeError =>
      mkLoop false false false None 0 0 Audio.new Input.new Scoring.reset c []
  end.

Definition session (c : NoteChart) : GameLoop := exec (start ctx0) (fresh c).

(** [k] notes in lane 0, one per second from second 1 on. *)
Definition laneZeroChart (k : nat) : NoteChart :=
  map (fun j => mkNote 0 (inject_Z (Z.of_nat j)) false) (seq 1 k).

(** One second passes, then the player taps the key of lane 0. *)
Definition tap : list Event := [Advance 1; KeyDown "a"; KeyUp "a"].

Definition taps (k : nat) : list Event := List.concat (repeat tap k).

Definition isRender (e : Effect) : bool :=
  match e with
  | Clear | DrawLanes | DrawHitLine | DrawNotes _ _
  | DrawScore _ _ | DrawFeedback _ | SetShake _ => true
  | _ => false
  end.

End Loop.

(** ** src/render/canvas.ts : Canvas2DRenderer, layout and drawNotes *)

Module Render.








End Render.

(** ** src/audio/sfxEngine.ts : SFXEngine, the combo chime *)

Module Sfx.

(** The combo buffers of the engine, a [Map<number, AudioBuffer>], by
    their keys: a buffer is identified with the key it is stored under. *)
Record SFXEngine : Type := mkSfx {
  comboBuffers : list Z
}.

Definition new : SFXEngine := mkSfx [].

(** [Map.prototype.set] on the keys. *)
Definition setBuffer (k : Z) (e : SFXEngine) : SFXEngine :=
  mkSfx (set_add Z.eq_dec k (comboBuffers e)).

(** SFXEngine.generateSFX, as far as the combo buffers go. *)
Definition generateSFX (e : SFXEngine) : SFXEngine :=
  setBuffer 100 (setBuffer 50 (setBuffer 20 (setBuffer 10 e))).

(** [this.comboBuffers.get(k) || null] *)
Definition getBuffer (e : SFXEngine) (k : Z) : option Z :=
  if set_mem Z.eq_dec k (comboBuffers e) then Some k else None.

(** SFXEngine.playComboChime: the buffer that is played, if any. *)
Definition playComboChime (e : SFXEngine) (combo : Z) : option Z :=
  if Z.leb 100 combo then getBuffer e 100
  else if Z.leb 50 combo then getBuffer e 50
  else if Z.leb 20 combo then getBuffer e 20
  else if Z.leb 10 combo then getBuffer e 10
  else None.

End Sfx.

(** ** src/game/input.ts : MultiInput *)

Module MultiInput.

(** The object state of class MultiInput.  [activeTouches], a
    [Map<number, number>] from touch id to lane, is kept as an association
    list with one entry per id; only membership of its values is ever
    asked. *)
Record MultiInput : Type := mkMulti {
  heldKeys : set string;
  activeTouches : list (Z * Z);
  activeLanes : set Z
}.

Definition new : MultiInput := mkMulti (empty_set string) [] (empty_set Z).

Definition getLane (key : string) : option Z := Input.getLane key.

Definition isKeyPressed (m : MultiInput) (key : string) : bool :=
  set_mem string_dec (Input.toLowerCase key) (heldKeys m).

(** MultiInput.isTouchingLane *)
Definition isTouchingLane (touches : list (Z * Z)) (lane : Z) : bool :=
  existsb (fun p => Z.eqb (snd p) lane) touches.

(** MultiInput.isKeyPressedForLane, and the [stillPressed] loop of
    onKeyUp: the held keys are looked up in the table as they are. *)
Definition isKeyPressedForLane (keys : set string) (lane : Z) : bool :=
  existsb (fun k => match Input.keyToLane k with
                    | Some l => Z.eqb l lane
                    | None => false
                    end) keys.

Definition onKeyDown (m : MultiInput) (key : string) : MultiInput :=
  let lane := getLane key in
  let keys := set_add string_dec (Input.toLowerCase key) (heldKeys m) in
  match lane with
  | Some lane => mkMulti keys (activeTouches m)
                         (set_add Z.eq_dec lane (activeLanes m))
  | None => mkMulti keys (activeTouches m) (activeLanes m)
  end.

Definition onKeyUp (m : MultiInput) (key : string) : MultiInput :=
  let lane := getLane key in
  let keys := set_remove string_dec (Input.toLowerCase key) (heldKeys m) in
  match lane with
  | Some lane =>
      let stillPressed := isKeyPressedForLane keys lane in
      if negb stillPressed && negb (isTouchingLane (activeTouches m) lane)
      then mkMulti keys (activeTouches m)
                   (set_remove Z.eq_dec lane (activeLanes m))
      else mkMulti keys (activeTouches m) (activeLanes m)
  | None => mkMulti keys (activeTouches m) (activeLanes m)
  end.

(** [Map.prototype.delete] and [Map.prototype.set] *)
Definition deleteTouch (touchId : Z) (touches : list (Z * Z)) : list (Z * Z) :=
  filter (fun p => negb (Z.eqb (fst p) touchId)) touches.

Definition setTouch (touchId lane : Z) (touches : list (Z * Z))
  : list (Z * Z) :=
  (touchId, lane) :: deleteTouch touchId touches.

Definition onTouchStart (m : MultiInput) (lane touchId : Z) : MultiInput :=
  mkMulti (heldKeys m) (setTouch touchId lane (activeTouches m))
          (set_add Z.eq_dec lane (activeLanes m)).

Definition onTouchEnd (m : MultiInput) (lane touchId : Z) : MultiInput :=
  let touches := deleteTouch touchId (activeTouches m) in
  if negb (isTouchingLane touches lane)
     && negb (isKeyPressedForLane (heldKeys m) lane)
  then mkMulti (heldKeys m) touches (set_remove Z.eq_dec lane (activeLanes m))
  else mkMulti (heldKeys m) touches (activeLanes m).

Definition isLanePressed (m : MultiInput) (lane : Z) : bool :=
  set_mem Z.eq_dec lane (activeLanes m).

(** MultiInput.clearTouches *)
Definition clearTouches (m : MultiInput) : MultiInput :=
  let lanes :=
    fold_left (fun acc key => match Input.keyToLane key with
                              | Some lane => set_add Z.eq_dec lane acc
                              | None => acc
                              end)
              (heldKeys m) (empty_set Z) in
  mkMulti (heldKeys m) [] lanes.

(** The calls an input source makes on the handler. *)
Inductive Op : Type :=
| KeyDown (key : string)
| KeyUp (key : string)
| TouchStart (lane touchId : Z)
| TouchEnd (lane touchId : Z)
| ClearTouches.

Definition apply (m : MultiInput) (o : Op) : MultiInput :=
  match o with
  | KeyDown key => onKeyDown m key
  | KeyUp key => onKeyUp m key
  | TouchStart lane touchId => onTouchStart m lane touchId
  | TouchEnd lane touchId => onTouchEnd m lane touchId
  | ClearTouches => clearTouches m
  end.

Definition run (m : MultiInput) (ops : list Op) : MultiInput :=
  fold_left apply ops m.

(** A lane is held when a held key maps to it or a live touch is on it. *)
Definition held (m : MultiInput) (lane : Z) : Prop :=
  (exists k, In k (heldKeys m) /\ Input.keyToLane k = Some lane) \/
  (exists touchId, In (touchId, lane) (activeTouches m)).

(** The sets of the handler have no repeated element. *)
Definition wellFormed (m : MultiInput) : Prop :=
  NoDup (heldKeys m) /\ NoDup (activeLanes m).

End MultiInput.

(** ** src/main.ts : KeyHeroGame, the start of a session and the key
    filter *)

Module Main.

Import Loop.

Inductive GameScreen : Type :=
| ScreenStart | ScreenSongSelect | ScreenDifficultySelect
| ScreenLoading | ScreenPlaying | ScreenEnd.

Definition isPlayingScreen (sc : GameScreen) : bool :=
  match sc with ScreenPlaying => true | _ => false end.

(** The part of KeyHeroGame that the key handlers read. *)
Record KeyHeroGame : Type := mkGame {
  currentScreen : GameScreen;
  gameLoop : option GameLoop
}.

Definition laneKeys : list string := ["a"; "s"; "d"; "f"]%string.

(** The [keydown] listener of setupInputHandlers. *)
Definition onKeyDown (eventKey : string) (g : KeyHeroGame) : KeyHeroGame :=
  let key := Input.toLowerCase eventKey in
  if existsb (String.eqb key) laneKeys && isPlayingScreen (currentScreen g)
  then
    match gameLoop g with
    | Some l => mkGame (currentScreen g) (Some (exec (handleKeyPress key) l))
    | None => g
    end
  else g.

(** The [keyup] listener of setupInputHandlers. *)
Definition onKeyUp (eventKey : string) (g : KeyHeroGame) : KeyHeroGame :=
  let key := Input.toLowerCase eventKey in
  if existsb (String.eqb key) laneKeys && isPlayingScreen (currentScreen g)
  then
    match gameLoop g with
    | Some l => mkGame (currentScreen g) (Some (exec (handleKeyUp key) l))
    | None => g
    end
  else g.

(** KeyHeroGame.startGameplay, from the point where the song and its
    chart have been found, on the engine, input handler and accumulator
    that the game owns and on the chart array of the song registry.
    [ctx] is the audio context of the start that stands (the first one, or
    the one of the procedural fallback), [loading] the time the device
    clock moves on while the rest of the set-up runs.  The engine is
    stopped and started, the accumulator is reset, the loop is constructed
    on the chart as it is, and the first tick runs.  A throwing constructor
    is caught and leads back to the song selection. *)
Definition startGameplay (ctx : Audio.AudioContext) (loading : Q)
    (audioEngine : Audio.WebAudioEngine) (input : Input.KeyboardInput)
    (chart : NoteChart) : KeyHeroGame :=
  let audioEngine := Audio.start ctx (Audio.stop audioEngine) in
  let audioEngine := Audio.advance loading audioEngine in
  let gameState := Scoring.reset in
  match Loop.new audioEngine input gameState chart with
  | ThrowTypeError => mkGame ScreenSongSelect None
  | Normal l => mkGame ScreenPlaying (Some (exec loop (set_isRunning true l)))
  end.

End Main.

(** ** Notions for the statements about whole runs *)

Module Runs.

Import Scoring Loop.

(** The Judge applied to a note and a song time. *)
Definition judge (p : Note * Q) : HitResult := evaluateHit (fst p) (snd p).

(** The counters of an accumulator are not negative. *)
Definition countsNonneg (g : GameState) : Prop :=
  0 <= perfectCount (stats g) /\ 0 <= goodCount (stats g) /\
  0 <= missCount (stats g).

Definition weighted (g : GameState) : Z :=
  perfectCount (stats g) * 100 + goodCount (stats g) * 50.

(** What holds of an accumulator that has only folded results of the
    Judge. *)
Definition judgedState (g : GameState) : Prop :=
  score g = weighted g /\ countsNonneg g /\
  0 <= currentCombo (stats g) <= maxCombo (stats g) /\
  maxCombo (stats g) <= perfectCount (stats g) + goodCount (stats g).

(** The accuracy breakpoint of a grade; grade F has none. *)
Definition breakpoint (gr : Grade) : option Z :=
  match gr with
  | GradeS => Some 95 | GradeA => Some 90 | GradeB => Some 80
  | GradeC => Some 70 | GradeD => Some 60 | GradeF => None
  end.

(** Grades in order, F lowest. *)
Definition gradeRank (gr : Grade) : Z :=
  match gr with
  | GradeS => 5 | GradeA => 4 | GradeB => 3
  | GradeC => 2 | GradeD => 1 | GradeF => 0
  end.




Definition isStart (o : Audio.Op) : bool :=
  match o with Audio.OpStart _ => true | _ => false end.

Definition applyAll (e : Audio.WebAudioEngine) (ops : list Audio.Op)
  : Audio.WebAudioEngine :=
  fold_left Audio.apply ops e.

(** An accumulator step made of Miss judgments only. *)
Definition missOnly (g g' : GameState) : Prop :=
  score g' = score g /\
  perfectCount (stats g') = perfectCount (stats g) /\
  goodCount (stats g') = goodCount (stats g) /\
  maxCombo (stats g') = maxCombo (stats g) /\
  missCount (stats g) <= missCount (stats g') /\
  (currentCombo (stats g') = currentCombo (stats g) \/
   currentCombo (stats g') = 0).

Definition isMissCue (e : Effect) : bool :=
  match e with
  | SetShake _ | PlayMiss => true
  | _ => false
  end.

(** The cues of [k] Miss judgments: a shake of intensity 5 and the miss
    sound, [k] times over. *)
Definition missCues (k : nat) : list Effect :=
  List.concat (repeat [SetShake 5; PlayMiss] k).

(** What the miss scan leaves alone and what it may do. *)
Definition scanStep (s s' : GameLoop) : Prop :=
  isRunning s' = isRunning s /\
  audioEngine s' = audioEngine s /\
  input s' = input s /\
  chartDuration s' = chartDuration s /\
  lastComboMilestone s' = lastComboMilestone s /\
  missOnly (gameState s) (gameState s') /\
  exists E, effects s' = effects s ++ E /\ forallb isMissCue E = true /\
            Z.of_nat (List.length E) =
              2 * (missCount (stats (gameState s'))
                   - missCount (stats (gameState s))) /\
            E = missCues (Z.to_nat (missCount (stats (gameState s'))
                                    - missCount (stats (gameState s)))).

(** The render calls of one tick, in the order [loop] makes them, on the
    state at the start of the tick. *)
Definition renderCalls (s : GameLoop) (songTime : Q) : list Effect :=
  [ Clear; DrawLanes; DrawHitLine; DrawNotes (chart s) songTime;
    DrawScore (getScore (gameState s)) (getCombo (gameState s));
    DrawFeedback (currentFeedback s) ].

(** The chimes a session has played are milestones, in increasing order,
    none above the tracker. *)
Definition chimesInOrder (s : GameLoop) : Prop :=
  comboBounded (gameState s) /\
  StronglySorted Z.lt (chimes (effects s)) /\
  Forall (fun c => In c milestones /\ c <= lastComboMilestone s)
         (chimes (effects s)).

(** The state the hit handler reaches when a press of [key] judges the
    note [n] at index [i], up to the hit sound; the milestone check
    follows. *)
Definition hitState (s : GameLoop) (key : string) (i : nat) (n : Note)
  : GameLoop :=
  let result := evaluateHit n (Audio.getSongTime (audioEngine s)) in
  set_effects (effects s ++ [PlayHit])
    (set_feedbackTimeout true
       (set_currentFeedback (Some (rating result))
          (set_chart (markHit i (chart s))
             (set_gameState (processHit (gameState s) result)
                (set_input (Input.onKeyDown (input s) key) s))))).

(** The state the hit handler reaches when the Judge rates the candidate
    of a press a Miss. *)
Definition missState (s : GameLoop) (key : string) (i : nat) (n : Note)
  : GameLoop :=
  let result := evaluateHit n (Audio.getSongTime (audioEngine s)) in
  set_effects (effects s ++ [SetShake 5; PlayMiss])
    (set_feedbackTimeout true
       (set_currentFeedback (Some (rating result))
          (set_chart (markHit i (chart s))
             (set_gameState (processHit (gameState s) result)
                (set_input (Input.onKeyDown (input s) key) s))))).

(** Key events on a KeyboardInput: a key going down ([true]) or up. *)
Definition applyKey (i : Input.KeyboardInput) (ev : bool * string)
  : Input.KeyboardInput :=
  if fst ev then Input.onKeyDown i (snd ev) else Input.onKeyUp i (snd ev).

Definition runKeys (i : Input.KeyboardInput) (evs : list (bool * string))
  : Input.KeyboardInput :=
  fold_left applyKey evs i.

(** Whether the last event of [evs] for [key], letter case aside, is a
    key-down; [init] when there is none. *)
Fixpoint pressedAfter (evs : list (bool * string)) (key : string)
    (init : bool) : bool :=
  match evs with
  | [] => init
  | (down, k) :: rest =>
      pressedAfter rest key
        (if String.eqb (Input.toLowerCase k) (Input.toLowerCase key)
         then down else init)
  end.

End Runs.

(** * Properties *)

(** ** Boolean comparisons against the order of [Q] *)

Lemma Qleb_spec (x y : Q) : Qleb x y = true <-> (x <= y)%Q.
Proof. apply Qle_bool_iff. Qed.

Lemma Qleb_false (x y : Q) : Qleb x y = false <-> (y < x)%Q.
Proof.
  unfold Qleb. split; intro H.
  - apply Qnot_le_lt. intro Hle. apply Qle_bool_iff in Hle. congruence.
  - destruct (Qle_bool x y) eqn:E; trivial.
    apply Qle_bool_iff in E. exfalso. apply (Qlt_not_le _ _ H E).
Qed.

Lemma Qltb_spec (x y : Q) : Qltb x y = true <-> (x < y)%Q.
Proof. unfold Qltb. rewrite negb_true_iff. apply (Qleb_false y x). Qed.

Lemma Qltb_false (x y : Q) : Qltb x y = false <-> (y <= x)%Q.
Proof. unfold Qltb. rewrite negb_false_iff. apply Qle_bool_iff. Qed.

(** ** Rounding to the nearest double *)

Section DoubleFacts.

Import Double.

Lemma nearestEven_spec (y : Q) :
  (Qabs (inject_Z (nearestEven y) - y) <= 1 # 2)%Q /\
  ((Qabs (inject_Z (nearestEven y) - y) == 1 # 2)%Q ->
   Z.even (nearestEven y) = true).
Proof.
  destruct y as [n d]. unfold nearestEven. cbn [Qnum Qden].
  pose proof (Z.div_mod n (Zpos d) ltac:(lia)) as Hdm.
  pose proof (Z.mod_pos_bound n (Zpos d) ltac:(lia)) as Hr.
  set (q := n / Zpos d) in *. set (r := n mod Zpos d) in *.
  assert (Hval : forall k : Z,
            (inject_Z k - (n # d) == ((k * Zpos d - n) # d))%Q).
  { intro k. unfold Qeq, Qminus, Qplus, Qopp, inject_Z. simpl. lia. }
  assert (Habs : forall k : Z,
            (Qabs (inject_Z k - (n # d)) == (Z.abs (k * Zpos d - n) # d))%Q).
  { intro k. rewrite (Hval k). reflexivity. }
  assert (Hle : forall k : Z,
            (Qabs (inject_Z k - (n # d)) <= 1 # 2)%Q <->
            2 * Z.abs (k * Zpos d - n) <= Zpos d).
  { intro k. rewrite (Habs k). unfold Qle. cbn [Qnum Qden]. lia. }
  assert (Heq : forall k : Z,
            (Qabs (inject_Z k - (n # d)) == 1 # 2)%Q <->
            2 * Z.abs (k * Zpos d - n) = Zpos d).
  { intro k. rewrite (Habs k). unfold Qeq. cbn [Qnum Qden]. lia. }
  destruct (Z.compare_spec (2 * r) (Zpos d)) as [Hc | Hc | Hc].
  - destruct (Z.even q) eqn:Ev.
    + split; [apply Hle; nia | intros _; exact Ev].
    + split; [apply Hle; nia |]. intros _.
      rewrite Z.even_add, Ev. reflexivity.
  - split; [apply Hle; nia |]. intro H. apply Heq in H. nia.
  - split; [apply Hle; nia |]. intro H. apply Heq in H. nia.
Qed.

Lemma pow2_pos (e : Z) : (0 < 2 ^ e)%Q.
Proof. apply Qpower_0_lt. reflexivity. Qed.

Lemma pow2_plus (a b : Z) : (2 ^ (a + b) == 2 ^ a * 2 ^ b)%Q.
Proof. apply Qpower_plus. discriminate. Qed.

Lemma pow2_inject (z : Z) : 0 <= z -> (inject_Z (2 ^ z) == 2 ^ z)%Q.
Proof. intro H. exact (Zpower_Qpower 2 z H). Qed.

Lemma exponent_spec (x : Q) :
  (0 < x)%Q ->
  (2 ^ 52 <= x / 2 ^ exponent x)%Q /\ (x / 2 ^ exponent x < 2 ^ 53)%Q.
Proof.
  intro Hx. destruct x as [n d].
  assert (Hn : 0 < n) by (unfold Qlt in Hx; simpl in Hx; lia).
  unfold exponent. cbn [Qnum Qden].
  pose proof (Z.log2_spec n Hn) as [Hn1 Hn2].
  pose proof (Z.log2_spec (Zpos d) ltac:(lia)) as [Hd1 Hd2].
  pose proof (Z.log2_nonneg n) as Hln.
  pose proof (Z.log2_nonneg (Zpos d)) as Hld.
  set (ln := Z.log2 n) in *. set (ld := Z.log2 (Zpos d)) in *.
  set (e1 := ln - ld - 53).
  set (x := n # d) in *.
  (* the bounds of the logarithms, in Q *)
  assert (HN : (inject_Z n == x * inject_Z (Zpos d))%Q).
  { subst x. unfold Qeq, Qmult, inject_Z. simpl. lia. }
  assert (HA1 : (2 ^ ln <= inject_Z n)%Q).
  { rewrite <- (pow2_inject ln Hln). now rewrite <- Zle_Qle. }
  assert (HA2 : (inject_Z n < 2 * 2 ^ ln)%Q).
  { replace (Z.succ ln) with (1 + ln) in Hn2 by lia.
    change 2%Q with (2 ^ 1)%Q at 1. rewrite <- pow2_plus.
    rewrite <- (pow2_inject (1 + ln)) by lia. now rewrite <- Zlt_Qlt. }
  assert (HB1 : (2 ^ ld <= inject_Z (Zpos d))%Q).
  { rewrite <- (pow2_inject ld Hld). now rewrite <- Zle_Qle. }
  assert (HB2 : (inject_Z (Zpos d) < 2 * 2 ^ ld)%Q).
  { replace (Z.succ ld) with (1 + ld) in Hd2 by lia.
    change 2%Q with (2 ^ 1)%Q at 1. rewrite <- pow2_plus.
    rewrite <- (pow2_inject (1 + ld)) by lia. now rewrite <- Zlt_Qlt. }
  assert (HE : (2 ^ ln == 2 ^ e1 * 2 ^ ld * (2 * 2 ^ 52))%Q).
  { change (2 * 2 ^ 52)%Q with (2 ^ 53)%Q. rewrite <- !pow2_plus.
    subst e1. replace (ln - ld - 53 + ld + 53) with ln by lia. reflexivity. }
  pose proof (pow2_pos ln) as PA. pose proof (pow2_pos ld) as PB.
  pose proof (pow2_pos e1) as PE. pose proof (pow2_pos 52) as PT.
  pose proof (pow2_pos (e1 + 1)) as PE1.
  assert (HE1 : (2 ^ (e1 + 1) == 2 ^ e1 * 2)%Q) by (now rewrite pow2_plus).
  set (A := (2 ^ ln)%Q) in *. set (B := (2 ^ ld)%Q) in *.
  set (E := (2 ^ e1)%Q) in *. set (T := (2 ^ 52)%Q) in *.
  set (D := inject_Z (Zpos d)) in *. set (N := inject_Z n) in *.
  change (2 ^ 53)%Q with (2 * T)%Q.
  assert (Hlow : (T * E < x)%Q).
  { clear - HN HA1 HB2 HE PB PE PT Hx. nra. }
  assert (Hhigh : (x < 4 * T * E)%Q).
  { clear - HN HA2 HB1 HE PB PE PT Hx. nra. }
  clearbody T A B D N.
  destruct (Qle_bool (2 * T) (x / E)) eqn:Ec.
  - apply Qle_bool_iff in Ec.
    assert (Hc : (2 * T * E <= x)%Q).
    { apply (Qmult_le_r _ _ E PE) in Ec.
      assert (K : (x / E * E == x)%Q) by (field; lra).
      rewrite K in Ec. exact Ec. }
    set (E1 := (2 ^ (e1 + 1))%Q) in *. clearbody E E1.
    split.
    + apply Qle_shift_div_l; [exact PE1 |]. rewrite HE1.
      clear - Hc. nra.
    + apply Qlt_shift_div_r; [exact PE1 |]. rewrite HE1.
      clear - Hhigh. nra.
  - assert (Hc : (x < 2 * T * E)%Q).
    { destruct (Qlt_le_dec x (2 * T * E)) as [H | H]; [exact H |].
      exfalso. assert (K : (2 * T <= x / E)%Q).
      { apply Qle_shift_div_l; [exact PE | exact H]. }
      apply Qle_bool_iff in K. congruence. }
    change (2 ^ e1)%Q with E. clearbody E.
    split.
    + apply Qle_shift_div_l; [exact PE |]. clear - Hlow. nra.
    + apply Qlt_shift_div_r; [exact PE |]. clear - Hc. nra.
Qed.

(** [round] rounds to 53 significant bits, to nearest, ties to even:
    [round x] is [k * 2^e] for an integer [k] of 53 bits, where [2^e] is
    the distance between neighbouring doubles at [x]; it is within half
    that distance of [x], and [k] is even when it is exactly half-way. *)
Lemma round_spec (x : Q) :
  ~ (x == 0)%Q ->
  exists k e,
    round x = (inject_Z k * 2 ^ e)%Q /\
    (2 ^ 52 <= Z.abs k <= 2 ^ 53)%Z /\
    (2 ^ 52 * 2 ^ e <= Qabs x)%Q /\ (Qabs x < 2 ^ 53 * 2 ^ e)%Q /\
    (Qabs (round x - x) <= (1 # 2) * 2 ^ e)%Q /\
    ((Qabs (round x - x) == (1 # 2) * 2 ^ e)%Q -> Z.even k = true) /\
    ((0 < x)%Q -> (0 < k)%Z) /\ ((x < 0)%Q -> (k < 0)%Z).
Proof.
  intro Hx. unfold round.
  destruct (Qeq_bool x 0) eqn:E0; [apply Qeq_bool_iff in E0; contradiction |].
  assert (Hpos : (0 < Qabs x)%Q).
  { destruct (Q_dec x 0) as [[H | H] | H]; [| | contradiction].
    - rewrite (Qabs_neg x); lra.
    - rewrite (Qabs_pos x); lra. }
  set (e := exponent (Qabs x)).
  destruct (exponent_spec (Qabs x) Hpos) as [He1 He2]. fold e in He1, He2.
  pose proof (pow2_pos e) as PP.
  set (P := (2 ^ e)%Q) in *.
  set (y := (x / P)%Q).
  destruct (nearestEven_spec y) as [Hk1 Hk2].
  set (k := nearestEven y) in *.
  exists k, e. fold P.
  assert (Hy : (y * P == x)%Q) by (subst y; field; lra).
  assert (Hay : (Qabs y == Qabs x / P)%Q).
  { subst y. unfold Qdiv. rewrite Qabs_Qmult.
    rewrite (Qabs_pos (/ P)); [reflexivity |].
    apply Qlt_le_weak, Qinv_lt_0_compat, PP. }
  assert (Hdiff : (inject_Z k * P - x == (inject_Z k - y) * P)%Q)
    by (rewrite <- Hy; ring).
  assert (Habs : (Qabs (inject_Z k * P - x) == Qabs (inject_Z k - y) * P)%Q).
  { rewrite Hdiff, Qabs_Qmult, (Qabs_pos P); [reflexivity | lra]. }
  change (2 ^ 53)%Q with (2 * 2 ^ 52)%Q in *.
  assert (HT : (2 ^ 52 == inject_Z (2 ^ 52))%Q) by reflexivity.
  set (T := (2 ^ 52)%Q) in *.
  assert (Hy1 : (T <= Qabs y)%Q) by (rewrite Hay; exact He1).
  assert (Hy2 : (Qabs y < 2 * T)%Q) by (rewrite Hay; exact He2).
  assert (Hx1 : (T * P <= Qabs x)%Q).
  { apply (Qmult_le_r _ _ P PP) in He1.
    assert (K : (Qabs x / P * P == Qabs x)%Q) by (field; lra).
    rewrite K in He1. exact He1. }
  assert (Hx2 : (Qabs x < 2 * T * P)%Q).
  { apply (Qmult_lt_r _ _ P PP) in He2.
    assert (K : (Qabs x / P * P == Qabs x)%Q) by (field; lra).
    rewrite K in He2. exact He2. }
  assert (Hsign1 : (0 < x)%Q -> (0 < k)%Z).
  { intro H. assert (Hyp : (T <= y)%Q).
    { rewrite <- (Qabs_pos y); [exact Hy1 |].
      subst y. apply Qlt_le_weak, Qlt_shift_div_l; lra. }
    apply Qabs_Qle_condition in Hk1.
    assert (K : (inject_Z 0 < inject_Z k)%Q).
    { change (inject_Z 0) with 0%Q. clearbody T. clear - HT Hyp Hk1.
      assert (1 <= T)%Q by (rewrite HT; vm_compute; discriminate). lra. }
    now rewrite <- Zlt_Qlt in K. }
  assert (Hsign2 : (x < 0)%Q -> (k < 0)%Z).
  { intro H. assert (Hyp : (y <= - T)%Q).
    { assert (Hyn : (y < 0)%Q).
      { subst y. apply Qlt_shift_div_r; lra. }
      rewrite (Qabs_neg y) in Hy1 by lra. lra. }
    apply Qabs_Qle_condition in Hk1.
    assert (K : (inject_Z k < inject_Z 0)%Q).
    { change (inject_Z 0) with 0%Q. clear - HT Hyp Hk1.
      assert (1 <= T)%Q by (rewrite HT; vm_compute; discriminate). lra. }
    now rewrite <- Zlt_Qlt in K. }
  split; [reflexivity |].
  split.
  { pose proof (Qabs_triangle_reverse (inject_Z k) y) as R1.
    pose proof (Qabs_triangle_reverse y (inject_Z k)) as R2.
    rewrite (Qabs_Qminus y (inject_Z k)) in R2.
    change (Qabs (inject_Z k)) with (inject_Z (Z.abs k)) in R1, R2.
    assert (L : (inject_Z (2 * 2 ^ 52 + -1) <= inject_Z (2 * Z.abs k))%Q).
    { rewrite inject_Z_plus, !inject_Z_mult, <- HT.
      change (inject_Z (-1)) with (-1)%Q. change (inject_Z 2) with 2%Q.
      lra. }
    assert (U : (inject_Z (2 * Z.abs k) <= inject_Z (2 * (2 * 2 ^ 52) + 1))%Q).
    { rewrite inject_Z_plus, !inject_Z_mult, <- HT.
      change (inject_Z 1) with 1%Q. change (inject_Z 2) with 2%Q.
      lra. }
    rewrite <- Zle_Qle in L, U.
    change (2 ^ 53)%Z with (2 * 2 ^ 52)%Z. lia. }
  split; [exact Hx1 |]. split; [exact Hx2 |].
  split.
  { rewrite Habs. apply Qmult_le_compat_r; [exact Hk1 | lra]. }
  split; [| split; assumption].
  intro Htie. apply Hk2. rewrite Habs in Htie.
  apply (Qmult_inj_r _ _ P); [lra | exact Htie].
Qed.

Lemma round_zero (x : Q) : (x == 0)%Q -> round x = 0%Q.
Proof.
  intro H. unfold round. apply Qeq_bool_iff in H. now rewrite H.
Qed.

Lemma round_pos (x : Q) : (0 < x)%Q -> (0 < round x)%Q.
Proof.
  intro H. destruct (round_spec x) as [k [e [E [_ [_ [_ [_ [_ [Hs _]]]]]]]]];
    [lra |].
  rewrite E. apply Qmult_lt_0_compat; [| apply pow2_pos].
  change 0%Q with (inject_Z 0). rewrite <- Zlt_Qlt. now apply Hs.
Qed.

Lemma round_neg (x : Q) : (x < 0)%Q -> (round x < 0)%Q.
Proof.
  intro H. destruct (round_spec x) as [k [e [E [_ [_ [_ [_ [_ [_ Hs]]]]]]]]];
    [lra |].
  rewrite E. specialize (Hs H).
  assert (K : (0 < - inject_Z k * 2 ^ e)%Q).
  { apply Qmult_lt_0_compat; [| apply pow2_pos].
    rewrite <- inject_Z_opp. change 0%Q with (inject_Z 0).
    rewrite <- Zlt_Qlt. lia. }
  assert (K2 : (- inject_Z k * 2 ^ e == - (inject_Z k * 2 ^ e))%Q) by ring.
  lra.
Qed.

(** Rounding keeps the sign, so a comparison against 0 can be made
    before or after it. *)
Lemma round_le_0 (x : Q) : Qleb (round x) 0 = Qleb x 0.
Proof.
  unfold Qleb. destruct (Q_dec x 0) as [[H | H] | H].
  - pose proof (round_neg x H) as K.
    assert (A : Qle_bool (round x) 0 = true) by (apply Qle_bool_iff; lra).
    assert (B : Qle_bool x 0 = true) by (apply Qle_bool_iff; lra).
    congruence.
  - pose proof (round_pos x H) as K.
    destruct (Qle_bool (round x) 0) eqn:A;
      [apply Qle_bool_iff in A; lra |].
    destruct (Qle_bool x 0) eqn:B; [apply Qle_bool_iff in B; lra |].
    reflexivity.
  - rewrite (round_zero x H).
    assert (B : Qle_bool x 0 = true) by (apply Qle_bool_iff; lra).
    rewrite B. reflexivity.
Qed.

(** One rounding moves a number by at most [2^-53] of its size. *)
Lemma round_error (x : Q) :
  (Qabs (round x - x) <= Qabs x * unitRoundoff)%Q.
Proof.
  unfold unitRoundoff. destruct (Qeq_dec x 0) as [H0 | H0].
  - rewrite (round_zero x H0).
    assert (E : (0 - x == 0)%Q) by lra.
    rewrite E, H0. vm_compute. discriminate.
  - destruct (round_spec x H0) as [k [e [_ [_ [H1 [_ [H3 _]]]]]]].
    pose proof (pow2_pos e) as PE.
    change (2 ^ 52)%Q with (4503599627370496 # 1)%Q in H1.
    set (E := (2 ^ e)%Q) in *. clearbody E.
    set (A := Qabs (round x - x)) in *. clearbody A.
    set (X := Qabs x) in *. clearbody X.
    lra.
Qed.

(** The rounding at work: [5.12 - 0.12] is exactly [5] in doubles, where
    [5.12] and [0.12] stand for the doubles nearest to them, although the
    exact difference of these two doubles lies above [5]; and
    [0.1 + 0.2] is not the double nearest to [0.3]. *)
Example round_examples :
  (sub (lit 5.12) (lit 0.12) == 5)%Q /\
  (5 < lit 5.12 - lit 0.12)%Q /\
  (lit 0.12 < 0.12)%Q /\ (5.12 < lit 5.12)%Q /\
  (lit 5.12 == 5764607523034235 # 1125899906842624)%Q /\
  (lit 0.12 == 1080863910568919 # 9007199254740992)%Q /\
  (add (lit 0.1) (lit 0.2) == 1351079888211149 # 4503599627370496)%Q /\
  ~ (add (lit 0.1) (lit 0.2) == lit 0.3)%Q.
Proof.
  vm_compute. repeat split; try reflexivity; discriminate.
Qed.

End DoubleFacts.

(** ** The Judge and the Accumulator *)

Section ScoringFacts.

Import Scoring.

Lemma Rating_eqb_eq (a b : Rating) : Rating_eqb a b = true <-> a = b.
Proof. destruct a, b; simpl; split; congruence. Qed.

Lemma Rating_eqb_neq (a b : Rating) : Rating_eqb a b = false <-> a <> b.
Proof. destruct a, b; simpl; split; congruence. Qed.

(** The three outcomes of [evaluateHit], by the position of the time
    difference against the two thresholds. *)
Lemma evaluateHit_perfect (n : Note) (t : Q) :
  (Qabs (hitTime n - t) <= 0.060)%Q ->
  evaluateHit n t = mkHitResult PERFECT 100 (Qabs (hitTime n - t)).
Proof.
  intro H. unfold evaluateHit.
  apply Qleb_spec in H. rewrite H. reflexivity.
Qed.

Lemma evaluateHit_good (n : Note) (t : Q) :
  (0.060 < Qabs (hitTime n - t))%Q -> (Qabs (hitTime n - t) <= 0.120)%Q ->
  evaluateHit n t = mkHitResult GOOD 50 (Qabs (hitTime n - t)).
Proof.
  intros H1 H2. unfold evaluateHit.
  apply Qleb_false in H1. apply Qleb_spec in H2. rewrite H1, H2. reflexivity.
Qed.

Lemma evaluateHit_miss (n : Note) (t : Q) :
  (0.120 < Qabs (hitTime n - t))%Q ->
  evaluateHit n t = mkHitResult MISS 0 (Qabs (hitTime n - t)).
Proof.
  intro H. unfold evaluateHit.
  assert (H1 : (0.060 < Qabs (hitTime n - t))%Q) by lra.
  apply Qleb_false in H1. apply Qleb_false in H. rewrite H1, H. reflexivity.
Qed.

Lemma evaluateHit_cases (n : Note) (t : Q) :
  let d := Qabs (hitTime n - t) in
  ((d <= 0.060)%Q /\ evaluateHit n t = mkHitResult PERFECT 100 d) \/
  ((0.060 < d)%Q /\ (d <= 0.120)%Q /\ evaluateHit n t = mkHitResult GOOD 50 d) \/
  ((0.120 < d)%Q /\ evaluateHit n t = mkHitResult MISS 0 d).
Proof.
  intro d. subst d.
  destruct (Qlt_le_dec 0.060 (Qabs (hitTime n - t))) as [H1 | H1].
  - destruct (Qlt_le_dec 0.120 (Qabs (hitTime n - t))) as [H2 | H2].
    + right; right. split; [assumption | now apply evaluateHit_miss].
    + right; left. repeat split; try assumption. now apply evaluateHit_good.
  - left. split; [assumption | now apply evaluateHit_perfect].
Qed.

Lemma evaluateHit_timeDiff (n : Note) (t : Q) :
  timeDiff (evaluateHit n t) = Qabs (hitTime n - t).
Proof.
  unfold evaluateHit.
  destruct (Qleb _ 0.060); [reflexivity |].
  destruct (Qleb _ 0.120); reflexivity.
Qed.

Lemma evaluateHit_missScoresNothing (n : Note) (t : Q) :
  missScoresNothing (evaluateHit n t).
Proof.
  unfold missScoresNothing.
  destruct (evaluateHit_cases n t) as [[_ E] | [[_ [_ E]] | [_ E]]];
    rewrite E; simpl; congruence.
Qed.


(** The boundary readings of the rating table, on concrete times. *)
Example evaluateHit_boundaries :
  rating (evaluateHit (mkNote 0 1 false) (1 - 0.060)) = PERFECT /\
  rating (evaluateHit (mkNote 0 1 false) (1 - 0.0601)) = GOOD /\
  rating (evaluateHit (mkNote 0 1 false) (1 + 0.120)) = GOOD /\
  rating (evaluateHit (mkNote 0 1 false) (1 + 0.1201)) = MISS.
Proof. repeat split; reflexivity. Qed.

(** C1, as amended.  Folding Perfect, Perfect, Miss, Good, Perfect (100,
    100, 0, 50 and 100 points) into a reset accumulator leaves
    currentCombo = 2, maxCombo = 2, score = 350 and missCount = 1,
    whatever the time differences the judgments carry: the Good and the
    Perfect after the Miss both extend the combo and both score. *)
Theorem combo_accounting (d1 d2 d3 d4 d5 : Q) :
  let g := processHits reset (scripted d1 d2 d3 d4 d5) in
  currentCombo (stats g) = 2 /\ maxCombo (stats g) = 2 /\
  score g = 350 /\ missCount (stats g) = 1.
Proof. vm_compute. repeat split; reflexivity. Qed.

(** C1, as stated, fails: the scripted sequence does not end with
    currentCombo = 1 and score = 250. *)
Lemma combo_accounting_as_stated_fails :
  let g := processHits reset (scripted 0 0 0.2 0.1 0) in
  ~ (currentCombo (stats g) = 1 /\ maxCombo (stats g) = 2 /\
     score g = 250 /\ missCount (stats g) = 1).
Proof. vm_compute. intros [H _]. discriminate H. Qed.

(** One fold step, by the rating of the judgment. *)
Lemma processHit_miss (g : GameState) (r : HitResult) :
  rating r = MISS ->
  processHit g r =
    mkGameState
      (mkGameStats (perfectCount (stats g)) (goodCount (stats g))
                   (missCount (stats g) + 1) (maxCombo (stats g)) 0)
      (score g).
Proof. intro H. unfold processHit. rewrite H. reflexivity. Qed.

Lemma processHit_perfect (g : GameState) (r : HitResult) :
  rating r = PERFECT ->
  processHit g r =
    mkGameState
      (mkGameStats (perfectCount (stats g) + 1) (goodCount (stats g))
                   (missCount (stats g))
                   (Z.max (maxCombo (stats g)) (currentCombo (stats g) + 1))
                   (currentCombo (stats g) + 1))
      (score g + scoreDelta r).
Proof. intro H. unfold processHit. rewrite H. reflexivity. Qed.

Lemma processHit_good (g : GameState) (r : HitResult) :
  rating r = GOOD ->
  processHit g r =
    mkGameState
      (mkGameStats (perfectCount (stats g)) (goodCount (stats g) + 1)
                   (missCount (stats g))
                   (Z.max (maxCombo (stats g)) (currentCombo (stats g) + 1))
                   (currentCombo (stats g) + 1))
      (score g + scoreDelta r).
Proof. intro H. unfold processHit. rewrite H. reflexivity. Qed.

Ltac by_rating r :=
  let E := fresh "E" in
  destruct (rating r) eqn:E;
  [ rewrite (processHit_perfect _ r E)
  | rewrite (processHit_good _ r E)
  | rewrite (processHit_miss _ r E) ]; simpl.

Lemma processHit_comboBounded (g : GameState) (r : HitResult) :
  comboBounded g -> comboBounded (processHit g r).
Proof. unfold comboBounded. intro H. by_rating r; lia. Qed.

Lemma processHits_comboBounded (rs : list HitResult) (g : GameState) :
  comboBounded g -> comboBounded (processHits g rs).
Proof.
  revert g. induction rs as [| r rs IH]; intros g H; simpl; [assumption |].
  apply IH. now apply processHit_comboBounded.
Qed.

Lemma processHit_score (g : GameState) (r : HitResult) :
  missScoresNothing r -> score (processHit g r) = score g + scoreDelta r.
Proof.
  unfold missScoresNothing. intro H. by_rating r; try reflexivity.
  rewrite (H eq_refl). lia.
Qed.

Lemma processHits_score (rs : list HitResult) (g : GameState) :
  Forall missScoresNothing rs ->
  score (processHits g rs) = score g + sumDeltas rs.
Proof.
  revert g. induction rs as [| r rs IH]; intros g H.
  - simpl. lia.
  - inversion H as [| ? ? Hr Hrs]; subst.
    change (processHits g (r :: rs)) with (processHits (processHit g r) rs).
    rewrite (IH _ Hrs), (processHit_score _ _ Hr). simpl. lia.
Qed.

Lemma processHits_snoc (rs : list HitResult) (r : HitResult) (g : GameState) :
  processHits g (rs ++ [r]) = processHit (processHits g rs) r.
Proof. unfold processHits. now rewrite fold_left_app. Qed.

Lemma firstn_S_nth_error {A : Type} (l : list A) (n : nat) (a : A) :
  nth_error l n = Some a -> firstn (S n) l = firstn n l ++ [a].
Proof.
  revert n. induction l as [| x l IH]; intros [| n] H; simpl in *;
    try discriminate.
  - now inversion H.
  - f_equal. now apply IH.
Qed.

Lemma Forall_prefix {A : Type} (P : A -> Prop) (l : list A) (n : nat) :
  Forall P l -> Forall P (firstn n l).
Proof.
  revert n. induction l as [| x l IH]; intros [| n] H; simpl;
    try constructor; inversion H; subst; auto.
Qed.

(** C7.  Fold any sequence of judgments, none of which gives points for a
    Miss, into a reset accumulator.  After every prefix, currentCombo is
    at most maxCombo and score is the sum of the score deltas folded so
    far; and the next judgment sets currentCombo to 0 if it is a Miss and
    adds 1 to it otherwise, so that currentCombo becomes 0 exactly on a
    Miss. *)
Theorem accumulator_invariants (rs : list HitResult) (n : nat) :
  Forall missScoresNothing rs ->
  let g := processHits reset (firstn n rs) in
  currentCombo (stats g) <= maxCombo (stats g) /\
  score g = sumDeltas (firstn n rs) /\
  forall r, nth_error rs n = Some r ->
    let g' := processHit g r in
    g' = processHits reset (firstn (S n) rs) /\
    (rating r = MISS -> currentCombo (stats g') = 0) /\
    (rating r <> MISS -> currentCombo (stats g') = currentCombo (stats g) + 1) /\
    (currentCombo (stats g') = 0 <-> rating r = MISS).
Proof.
  intros Hwf g.
  assert (Hb : comboBounded g).
  { apply processHits_comboBounded. unfold comboBounded. simpl. lia. }
  split; [apply Hb |]. split.
  - subst g. rewrite processHits_score; [reflexivity |].
    now apply Forall_prefix.
  - intros r Hr g'. split.
    + subst g' g. rewrite (firstn_S_nth_error _ _ _ Hr).
      now rewrite processHits_snoc.
    + unfold comboBounded in Hb. subst g'.
      by_rating r; repeat split; intros; try congruence; try lia.
Qed.

Lemma accumulator_invariants_witness :
  let rs := [ mkHitResult PERFECT 100 0; mkHitResult MISS 0 0.2;
              mkHitResult GOOD 50 0.1 ] in
  Forall missScoresNothing rs /\
  currentCombo (stats (processHits reset (firstn 2 rs)))
    <= maxCombo (stats (processHits reset (firstn 2 rs))).
Proof.
  intro rs.
  assert (H : Forall missScoresNothing rs).
  { repeat constructor; unfold missScoresNothing; simpl; congruence. }
  split; [exact H |].
  exact (proj1 (accumulator_invariants rs 2 H)).
Defined.

End ScoringFacts.

(** ** The Audio Clock *)

Section AudioFacts.

Import Audio.




Lemma getSongTime_not_playing (e : WebAudioEngine) :
  isPlaying e = false -> getSongTime e = 0%Q.
Proof.
  intro H. unfold getSongTime. rewrite H.
  destruct (audioContext e); reflexivity.
Qed.


Lemma getSongTime_nonneg (e : WebAudioEngine) : (0 <= getSongTime e)%Q.
Proof.
  unfold getSongTime. destruct (audioContext e); [| lra].
  destruct (negb (isPlaying e)); [lra |]. apply Q.le_max_l.
Qed.




(** C9.  For a playing, unpaused engine, the song time read right after
    [resume] equals the one read right before [pause], however far the
    device clock moved in between: the pause adds to [totalPausedTime]
    exactly what the same clock advanced.  [pause] changes nothing when
    the engine is not playing or already paused, and [resume] changes
    nothing when it is not paused. *)
Theorem pause_exclusion (e : WebAudioEngine) (d : Q) :
  (isPlaying e = true -> isPaused e = false ->
     (getSongTime (resume (advance d (pause e))) == getSongTime e)%Q /\
     (audioContext e <> None ->
        (totalPausedTime (resume (advance d (pause e)))
           == totalPausedTime e + d)%Q)) /\
  (isPlaying e = false \/ isPaused e = true -> pause e = e) /\
  (isPaused e = false -> resume e = e).
Proof.
  split; [| split].
  - intros Hp Hq. unfold pause.
    destruct (audioContext e) as [ctx |] eqn:Ec.
    + rewrite Hp, Hq. simpl. split.
      * unfold getSongTime. simpl. rewrite Ec, Hp. simpl.
        apply Q.max_compat; [reflexivity | lra].
      * intros _. lra.
    + assert (Ea : advance d e = e) by (unfold advance; now rewrite Ec).
      assert (Er : resume e = e) by (unfold resume; now rewrite Ec).
      rewrite Ea, Er. split; [reflexivity | congruence].
  - intros H. unfold pause. destruct (audioContext e); [| reflexivity].
    destruct H as [H | H]; rewrite H; simpl; try reflexivity.
    rewrite orb_true_r. reflexivity.
  - intros H. unfold resume. rewrite H.
    destruct (audioContext e); reflexivity.
Qed.

Lemma pause_exclusion_witness :
  let e := advance 1.5 (start (mkAudioContext 0 false) new) in
  isPlaying e = true /\ isPaused e = false /\
  (getSongTime (resume (advance 40 (pause e))) == getSongTime e)%Q.
Proof.
  intro e.
  assert (Hp : isPlaying e = true) by reflexivity.
  assert (Hq : isPaused e = false) by reflexivity.
  split; [exact Hp |]. split; [exact Hq |].
  exact (proj1 (proj1 (pause_exclusion e 40) Hp Hq)).
Defined.

End AudioFacts.

(** ** The Session Loop *)

Section LoopFacts.

Import Scoring Loop.
Local Open Scope loop_scope.

(** Running the monadic combinators. *)
Lemma bind_get {A B : Type} (f : GameLoop -> A) (k : A -> M B) (s : GameLoop) :
  bind (get f) k s = k (f s) s.
Proof. reflexivity. Qed.

Lemma bind_modify {B : Type} (f : GameLoop -> GameLoop) (k : unit -> M B)
    (s : GameLoop) :
  bind (modify f) k s = k tt (f s).
Proof. reflexivity. Qed.

Lemma bind_emit {B : Type} (e : Effect) (k : unit -> M B) (s : GameLoop) :
  bind (emit e) k s = k tt (set_effects (effects s ++ [e]) s).
Proof. reflexivity. Qed.

Lemma bind_bind {A B C : Type} (m : M A) (k : A -> M B) (h : B -> M C)
    (s : GameLoop) :
  bind (bind m k) h s = bind m (fun a => bind (k a) h) s.
Proof. reflexivity. Qed.

Lemma bind_exec {A B : Type} (m : M A) (k : A -> M B) (s : GameLoop) :
  snd (bind m k s) = snd (k (fst (m s)) (snd (m s))).
Proof. reflexivity. Qed.

Ltac mstep :=
  first [ rewrite bind_get | rewrite bind_modify | rewrite bind_emit ];
  cbv beta.

(** *** The constructor *)

Lemma index_last (c : NoteChart) (n : Note) :
  index (c ++ [n]) (Z.of_nat (List.length (c ++ [n])) - 1) = Some n.
Proof.
  unfold index. rewrite length_app. simpl.
  replace (Z.of_nat (List.length c + 1) - 1) with (Z.of_nat (List.length c))
    by lia.
  destruct (Z.ltb_spec (Z.of_nat (List.length c)) 0) as [H | _]; [lia |].
  rewrite Nat2Z.id, nth_error_app2 by lia.
  now rewrite Nat.sub_diag.
Qed.

(** C10.  The constructor completes only for a chart with at least one
    note: for the empty chart the read of the last element is out of
    bounds and the constructor throws, while for a chart ending in
    [lastNote] it sets [chartDuration = lastNote.hitTime + 2.0].  The
    stand-alone [getChartDuration] guards the empty chart and returns 0
    there. *)
Theorem constructor_needs_a_note (ae : Audio.WebAudioEngine)
    (inp : Input.KeyboardInput) (g : GameState) (c : NoteChart) :
  (Loop.new ae inp g c = ThrowTypeError <-> c = []) /\
  (forall front lastNote, c = front ++ [lastNote] ->
     exists s, Loop.new ae inp g c = Normal s /\
               chartDuration s = (hitTime lastNote + 2.0)%Q /\
               chartDuration s = Chart.getChartDuration c /\
               chart s = c /\ isRunning s = false) /\
  Chart.getChartDuration [] = 0%Q.
Proof.
  split; [| split; [| reflexivity]].
  - split.
    + intro H. destruct c as [| n c] using rev_ind; [reflexivity |].
      unfold Loop.new in H. rewrite index_last in H. discriminate H.
    + intros ->. reflexivity.
  - intros front lastNote ->. unfold Loop.new, Chart.getChartDuration.
    rewrite index_last. eexists. split; [reflexivity |].
    simpl. repeat split.
    rewrite length_app. simpl.
    destruct (Nat.eqb_spec (List.length front + 1) 0) as [H | _]; [lia |].
    reflexivity.
Qed.

Lemma constructor_needs_a_note_witness :
  exists s,
    Loop.new Audio.new Input.new Scoring.reset
      ([mkNote 0 1 false] ++ [mkNote 1 2 false]) = Normal s /\
    chartDuration s = (2 + 2.0)%Q.
Proof.
  destruct (proj1 (proj2 (constructor_needs_a_note Audio.new Input.new
                            Scoring.reset
                            ([mkNote 0 1 false] ++ [mkNote 1 2 false])))
                  [mkNote 0 1 false] (mkNote 1 2 false) eq_refl)
    as [s [H1 [H2 _]]].
  exists s. split; assumption.
Defined.

(** *** The end of the session *)

(** A running tick past [chartDuration] only ends the game. *)
Lemma loop_over (s : GameLoop) :
  isRunning s = true ->
  (chartDuration s < Audio.getSongTime (audioEngine s))%Q ->
  exec loop s =
    set_effects
      (effects s ++
         [EndScreenShow (getStats (gameState s)) (getScore (gameState s))
                        (getAccuracy (gameState s)) (getGrade (gameState s))])
      (set_isRunning false s).
Proof.
  intros Hr Ht. apply Qltb_spec in Ht.
  unfold exec, loop. mstep. rewrite Hr. cbn [negb].
  do 2 mstep. rewrite Ht. reflexivity.
Qed.

(** C2, as amended.  On a running tick whose song time exceeds
    [chartDuration] the loop stops running and snapshots the stats, score,
    accuracy and grade onto the end screen, and that is all it does: no
    render call, no miss scan, no next frame.  The audio engine is left
    exactly as it was; [stop] is not called on it by this transition, only
    by [GameLoop.stop] or by the next start. *)
Theorem end_tick (s : GameLoop) :
  isRunning s = true ->
  (chartDuration s < Audio.getSongTime (audioEngine s))%Q ->
  let s' := exec loop s in
  s' = set_effects (effects s') (set_isRunning false s) /\
  isRunning s' = false /\
  effects s' =
    effects s ++
      [EndScreenShow (getStats (gameState s)) (getScore (gameState s))
                     (getAccuracy (gameState s)) (getGrade (gameState s))] /\
  existsb isRender (skipn (List.length (effects s)) (effects s')) = false /\
  audioEngine s' = audioEngine s /\
  chart s' = chart s /\ gameState s' = gameState s.
Proof.
  intros Hr Ht s'. subst s'. rewrite (loop_over s Hr Ht).
  cbn [isRunning effects audioEngine chart gameState set_effects
       set_isRunning].
  repeat split.
  rewrite skipn_app, skipn_all, Nat.sub_diag. reflexivity.
Qed.

(** *** Sorting by a key and taking the first element *)

Section SortByKey.

Context {A : Type} (key : A -> Q).

(** The comparator is negative or zero exactly when the first key is at
    most the second: rounding the difference keeps its sign. *)
Lemma byKey_le (x y : A) :
  Qleb (byKey key x y) 0 = true <-> (key x <= key y)%Q.
Proof.
  unfold byKey, Double.sub. rewrite round_le_0, Qleb_spec.
  split; intro H; lra.
Qed.

Lemma insertBy_In (x : A) (l : list A) (y : A) :
  In y (insertBy (byKey key) x l) <-> y = x \/ In y l.
Proof.
  induction l as [| z l IH]; simpl.
  - intuition.
  - destruct (Qleb ((byKey key) x z) 0); simpl; [intuition |].
    rewrite IH. intuition.
Qed.

Lemma sortBy_In (l : list A) (y : A) : In y (sortBy (byKey key) l) <-> In y l.
Proof.
  induction l as [| x l IH]; simpl; [reflexivity |].
  rewrite insertBy_In, IH. intuition.
Qed.

Lemma sortBy_hd_min (l : list A) (h : A) :
  hd_error (sortBy (byKey key) l) = Some h ->
  In h l /\ forall y, In y l -> (key h <= key y)%Q.
Proof.
  revert h. induction l as [| x l IH]; intros h Hh; simpl in Hh.
  - discriminate Hh.
  - destruct (sortBy (byKey key) l) as [| y0 rest] eqn:Es.
    + simpl in Hh. injection Hh as <-. split; [now left |].
      intros y [<- | Hy]; [lra |].
      apply sortBy_In in Hy. rewrite Es in Hy. destruct Hy.
    + destruct (IH y0 eq_refl) as [Hin Hmin].
      simpl in Hh.
      destruct (Qleb (byKey key x y0) 0) eqn:Ec; simpl in Hh;
        injection Hh as <-.
      * apply byKey_le in Ec. split; [now left |].
        intros y [<- | Hy]; [lra |].
        specialize (Hmin y Hy). lra.
      * assert (Hlt : (key y0 < key x)%Q).
        { apply Qnot_le_lt. intro Hle. apply byKey_le in Hle. congruence. }
        split; [now right |].
        intros y [<- | Hy]; [lra | now apply Hmin].
Qed.

End SortByKey.

(** *** The candidate note of a press *)

Lemma In_combine_seq (c : NoteChart) (k i : nat) (n : Note) :
  In (i, n) (combine (seq k (List.length c)) c) <->
  (k <= i)%nat /\ nth_error c (i - k) = Some n.
Proof.
  revert k. induction c as [| m c IH]; intro k; simpl.
  - split; [intros [] | intros [_ H]].
    destruct (i - k)%nat; discriminate H.
  - rewrite IH. split.
    + intros [H | [Hk H]].
      * injection H as <- <-. split; [lia |].
        now rewrite Nat.sub_diag.
      * split; [lia |].
        replace (i - k)%nat with (S (i - S k)) by lia. exact H.
    + intros [Hk H]. destruct (Nat.eq_dec i k) as [-> | Hne].
      * left. rewrite Nat.sub_diag in H. simpl in H. congruence.
      * right. split; [lia |].
        replace (i - k)%nat with (S (i - S k)) in H by lia. exact H.
Qed.

Lemma In_indexed (c : NoteChart) (i : nat) (n : Note) :
  In (i, n) (indexed c) <-> nth_error c i = Some n.
Proof.
  unfold indexed. rewrite In_combine_seq, Nat.sub_0_r.
  split; [now intros [_ H] | intro H; split; [lia | exact H]].
Qed.

Lemma inWindow_spec (l : Z) (t : Q) (n : Note) :
  inWindow l t n = true <->
  lane n = l /\ hit n = false /\
  (Double.sub t (Double.lit 0.120) <= hitTime n)%Q /\
  (hitTime n <= Double.add t (Double.lit 0.120))%Q.
Proof.
  unfold inWindow.
  rewrite !andb_true_iff, Z.eqb_eq, negb_true_iff, !Qleb_spec.
  tauto.
Qed.

(** The two rounded bounds of the filter against the exact ones: each is
    within [(|songTime| + 1) * 2^-53] of [songTime - 0.120] and
    [songTime + 0.120]. *)
Lemma lit_120 :
  (Double.lit 0.120 == 1080863910568919 # 9007199254740992)%Q.
Proof. vm_compute. reflexivity. Qed.

Lemma window_bounds (t : Q) :
  let lo := Double.sub t (Double.lit 0.120) in
  let hi := Double.add t (Double.lit 0.120) in
  let slack := ((Qabs t + 1) * Double.unitRoundoff)%Q in
  (t - 0.120 - slack <= lo)%Q /\ (lo <= t - 0.120 + slack)%Q /\
  (t + 0.120 - slack <= hi)%Q /\ (hi <= t + 0.120 + slack)%Q.
Proof.
  intros lo hi slack. subst lo hi slack.
  unfold Double.sub, Double.add, Double.unitRoundoff.
  pose proof lit_120 as Hc. set (c := Double.lit 0.120) in *. clearbody c.
  pose proof (round_error (t - c)) as E1.
  pose proof (round_error (t + c)) as E2.
  unfold Double.unitRoundoff in E1, E2.
  apply Qabs_Qle_condition in E1, E2.
  pose proof (Qabs_triangle t (- c)) as T1.
  pose proof (Qabs_triangle t c) as T2.
  rewrite Qabs_opp in T1.
  assert (Ac : (Qabs c == c)%Q) by (apply Qabs_pos; lra).
  rewrite Ac in T1, T2.
  change (t + - c)%Q with (t - c)%Q in T1.
  set (R1 := Double.round (t - c)) in *.
  set (R2 := Double.round (t + c)) in *.
  set (A := Qabs t) in *. set (A1 := Qabs (t - c)) in *.
  set (A2 := Qabs (t + c)) in *.
  clearbody R1 R2 A A1 A2.
  repeat split; lra.
Qed.

(** A note that passes the filter is within 0.120 s of the song time up
    to that rounding, and a note that is within 0.120 s less that
    rounding passes the filter. *)
Lemma window_outer (t h : Q) :
  (Double.sub t (Double.lit 0.120) <= h)%Q ->
  (h <= Double.add t (Double.lit 0.120))%Q ->
  (Qabs (h - t) <= 0.120 + (Qabs t + 1) * Double.unitRoundoff)%Q.
Proof.
  intros H1 H2. destruct (window_bounds t) as [B1 [_ [_ B4]]].
  cbv zeta in *. apply Qabs_Qle_condition. split; lra.
Qed.

Lemma window_inner (t h : Q) :
  (Qabs (h - t) <= 0.120 - (Qabs t + 1) * Double.unitRoundoff)%Q ->
  (Double.sub t (Double.lit 0.120) <= h)%Q /\
  (h <= Double.add t (Double.lit 0.120))%Q.
Proof.
  intro H. destruct (window_bounds t) as [_ [B2 [B3 _]]].
  cbv zeta in *. apply Qabs_Qle_condition in H. split; lra.
Qed.

(** What [findNearestNote] returns: a note of the chart that passes the
    filter and is nearest in time, by the rounded distance, among those
    that do, or nothing when no note passes the filter. *)
Lemma findNearestNote_spec (c : NoteChart) (l : Z) (t : Q) :
  match findNearestNote c l t with
  | Some (i, n) =>
      nth_error c i = Some n /\ inWindow l t n = true /\
      forall j m, nth_error c j = Some m -> inWindow l t m = true ->
                  (distance t n <= distance t m)%Q
  | None =>
      forall j m, nth_error c j = Some m -> inWindow l t m = false
  end.
Proof.
  unfold findNearestNote.
  set (pass := fun p : nat * Note => inWindow l t (snd p)).
  destruct (filter pass (indexed c)) as [| p0 ps] eqn:Ef.
  - intros j m Hj. destruct (inWindow l t m) eqn:Ew; [| reflexivity].
    assert (Hin : In (j, m) (filter pass (indexed c))).
    { apply filter_In. split; [now apply In_indexed | exact Ew]. }
    rewrite Ef in Hin. destruct Hin.
  - rewrite <- Ef.
    set (key := fun p : nat * Note => distance t (snd p)).
    change (fun a b : nat * Note =>
              Double.sub (Qabs (Double.sub (hitTime (snd a)) t))
                         (Qabs (Double.sub (hitTime (snd b)) t)))
      with (byKey key).
    destruct (hd_error (sortBy (byKey key) (filter pass (indexed c))))
      as [[i n] |] eqn:Eh.
    + destruct (sortBy_hd_min key _ _ Eh) as [Hin Hmin].
      apply filter_In in Hin. destruct Hin as [Hi Hw].
      apply In_indexed in Hi. split; [exact Hi |]. split; [exact Hw |].
      intros j m Hj Hm.
      apply (Hmin (j, m)). apply filter_In.
      split; [now apply In_indexed | exact Hm].
    + exfalso.
      assert (Hin : In p0 (sortBy (byKey key) (filter pass (indexed c)))).
      { apply sortBy_In. rewrite Ef. now left. }
      destruct (sortBy (byKey key) (filter pass (indexed c)));
        [destruct Hin | discriminate Eh].
Qed.

(** *** The hit handler, case by case *)

Ltac proj_simpl :=
  cbn [isRunning animationFrameId feedbackTimeout currentFeedback
       chartDuration lastComboMilestone audioEngine input gameState chart
       effects set_isRunning set_animationFrameId set_feedbackTimeout
       set_currentFeedback set_lastComboMilestone set_audioEngine set_input
       set_gameState set_chart set_effects].

Ltac proj_simpl_in H :=
  cbn [isRunning animationFrameId feedbackTimeout currentFeedback
       chartDuration lastComboMilestone audioEngine input gameState chart
       effects set_isRunning set_animationFrameId set_feedbackTimeout
       set_currentFeedback set_lastComboMilestone set_audioEngine set_input
       set_gameState set_chart set_effects] in H.

Lemma handleKeyPress_not_running (key : string) (s : GameLoop) :
  isRunning s = false -> exec (handleKeyPress key) s = s.
Proof.
  intro Hr. unfold exec, handleKeyPress. mstep. rewrite Hr. reflexivity.
Qed.

Lemma handleKeyPress_held (key : string) (s : GameLoop) :
  isRunning s = true -> Input.isKeyPressed (input s) key = true ->
  exec (handleKeyPress key) s = s.
Proof.
  intros Hr Hp. unfold exec, handleKeyPress. mstep. rewrite Hr. cbn [negb].
  mstep. rewrite Hp. reflexivity.
Qed.

Lemma handleKeyPress_unmapped (key : string) (s : GameLoop) :
  isRunning s = true -> Input.isKeyPressed (input s) key = false ->
  Input.getLane key = None ->
  exec (handleKeyPress key) s = set_input (Input.onKeyDown (input s) key) s.
Proof.
  intros Hr Hp Hl. unfold exec, handleKeyPress. mstep. rewrite Hr. cbn [negb].
  mstep. rewrite Hp. mstep. rewrite Hl. reflexivity.
Qed.

Lemma handleKeyPress_no_candidate (key : string) (l : Z) (s : GameLoop) :
  isRunning s = true -> Input.isKeyPressed (input s) key = false ->
  Input.getLane key = Some l ->
  findNearestNote (chart s) l (Audio.getSongTime (audioEngine s)) = None ->
  exec (handleKeyPress key) s = set_input (Input.onKeyDown (input s) key) s.
Proof.
  intros Hr Hp Hl Hf. unfold exec, handleKeyPress. mstep. rewrite Hr.
  cbn [negb]. mstep. rewrite Hp. mstep. rewrite Hl. do 2 mstep.
  proj_simpl. rewrite Hf. reflexivity.
Qed.

Lemma handleKeyPress_candidate (key : string) (l : Z) (i : nat) (n : Note)
    (s : GameLoop) :
  isRunning s = true -> Input.isKeyPressed (input s) key = false ->
  Input.getLane key = Some l ->
  findNearestNote (chart s) l (Audio.getSongTime (audioEngine s)) = Some (i, n) ->
  let result := evaluateHit n (Audio.getSongTime (audioEngine s)) in
  let s1 :=
    set_feedbackTimeout true
      (set_currentFeedback (Some (rating result))
         (set_chart (markHit i (chart s))
            (set_gameState (processHit (gameState s) result)
               (set_input (Input.onKeyDown (input s) key) s)))) in
  exec (handleKeyPress key) s =
    if Rating_eqb (rating result) MISS
    then exec (emit (SetShake 5) ;; emit PlayMiss) s1
    else exec (emit PlayHit ;;
               currentCombo <- get (fun s => getCombo (gameState s)) ;;
               checkComboMilestone currentCombo) s1.
Proof.
  intros Hr Hp Hl Hf result s1.
  pose proof (findNearestNote_spec (chart s) l
                (Audio.getSongTime (audioEngine s))) as Hs.
  rewrite Hf in Hs. destruct Hs as [_ [Hw _]].
  apply inWindow_spec in Hw. destruct Hw as [_ [Hh _]].
  unfold exec, handleKeyPress. mstep. rewrite Hr.
  cbn [negb]. mstep. rewrite Hp. mstep. rewrite Hl. do 2 mstep.
  proj_simpl. rewrite Hf, Hh. do 2 mstep. unfold showFeedback.
  rewrite bind_bind. do 2 mstep. proj_simpl. fold result.
  destruct (Rating_eqb (rating result) MISS); reflexivity.
Qed.

(** The milestone check touches the sound effects and the tracker only,
    and it lowers the tracker only for a combo of 0. *)
Lemma GameLoop_eta (s : GameLoop) :
  s = set_effects (effects s) (set_lastComboMilestone (lastComboMilestone s) s).
Proof. destruct s; reflexivity. Qed.

Lemma milestoneLoop_frame (ms : list Z) (combo : Z) (s : GameLoop) :
  exists E L,
    snd (milestoneLoop ms combo s) =
      set_effects E (set_lastComboMilestone L s) /\
    lastComboMilestone s <= L.
Proof.
  induction ms as [| m ms IH]; simpl.
  - exists (effects s), (lastComboMilestone s).
    split; [apply GameLoop_eta | lia].
  - mstep.
    destruct (Z.eqb combo m && Z.ltb (lastComboMilestone s) m) eqn:Ec.
    + apply andb_true_iff in Ec. destruct Ec as [_ Ec].
      apply Z.ltb_lt in Ec.
      exists (effects s ++ [PlayComboChime combo]), m.
      split; [reflexivity | lia].
    + exact IH.
Qed.

Lemma checkComboMilestone_frame (combo : Z) (s : GameLoop) :
  exists E L,
    snd (checkComboMilestone combo s) =
      set_effects E (set_lastComboMilestone L s) /\
    (combo <> 0 -> lastComboMilestone s <= L).
Proof.
  unfold checkComboMilestone. rewrite bind_exec.
  destruct (milestoneLoop_frame milestones combo s) as [E [L [Hs HL]]].
  rewrite Hs. destruct (Z.eqb_spec combo 0) as [H0 | H0].
  - exists E, 0. split; [reflexivity | congruence].
  - exists E, L. split; [reflexivity | intros _; exact HL].
Qed.

(** What a press that finds a candidate does to the input source, the
    chart, the accumulator and the feedback, whatever the rating. *)
Lemma handleKeyPress_judges (key : string) (l : Z) (i : nat) (n : Note)
    (s : GameLoop) :
  isRunning s = true -> Input.isKeyPressed (input s) key = false ->
  Input.getLane key = Some l ->
  findNearestNote (chart s) l (Audio.getSongTime (audioEngine s)) = Some (i, n) ->
  let t := Audio.getSongTime (audioEngine s) in
  let s' := exec (handleKeyPress key) s in
  input s' = Input.onKeyDown (input s) key /\
  chart s' = markHit i (chart s) /\
  gameState s' = processHit (gameState s) (evaluateHit n t) /\
  currentFeedback s' = Some (rating (evaluateHit n t)).
Proof.
  intros Hr Hp Hl Ef t s'.
  subst s'. rewrite (handleKeyPress_candidate key l i n s Hr Hp Hl Ef).
  fold t.
  destruct (Rating_eqb (rating (evaluateHit n t)) MISS).
  - unfold exec. mstep. cbn [snd emit modify]. proj_simpl. repeat split.
  - unfold exec. do 2 mstep.
    match goal with
    | |- context [checkComboMilestone ?c ?x] =>
        destruct (checkComboMilestone_frame c x) as [E [L [Hs _]]]
    end.
    rewrite Hs. proj_simpl. repeat split.
Qed.

(** C8, as amended.  A press that is handled while running (the key is
    not already held and maps to a lane) picks as its candidate an
    unjudged note of that lane whose hit time lies between the doubles
    [songTime - 0.120] and [songTime + 0.120], with the smallest distance
    [|hitTime - songTime|], as the code computes it, among such notes, and
    judges exactly that note with the rating the Judge gives it.  The
    candidate is within 0.120 s of the song time up to the rounding of
    the two bounds, [(|songTime| + 1) * 2^-53].  When no note passes the
    filter, so that no unjudged note of the lane is within 0.120 s less
    that rounding, the press judges nothing: the chart, the score and
    counters, the milestone tracker, the feedback, the audio engine and
    the collaborators are untouched.  In both cases the input source
    records the key as held. *)
Theorem press_candidate (s : GameLoop) (key : string) (l : Z) :
  isRunning s = true ->
  Input.isKeyPressed (input s) key = false ->
  Input.getLane key = Some l ->
  let t := Audio.getSongTime (audioEngine s) in
  let s' := exec (handleKeyPress key) s in
  let rounding := ((Qabs t + 1) * Double.unitRoundoff)%Q in
  let passes (m : Note) :=
    lane m = l /\ hit m = false /\
    (Double.sub t (Double.lit 0.120) <= hitTime m)%Q /\
    (hitTime m <= Double.add t (Double.lit 0.120))%Q in
  input s' = Input.onKeyDown (input s) key /\
  match findNearestNote (chart s) l t with
  | Some (i, n) =>
      nth_error (chart s) i = Some n /\ passes n /\
      (Qabs (hitTime n - t) <= 0.120 + rounding)%Q /\
      (forall j m, nth_error (chart s) j = Some m -> passes m ->
         (distance t n <= distance t m)%Q) /\
      chart s' = markHit i (chart s) /\
      gameState s' = processHit (gameState s) (evaluateHit n t) /\
      currentFeedback s' = Some (rating (evaluateHit n t))
  | None =>
      (forall j m, nth_error (chart s) j = Some m -> ~ passes m) /\
      (forall j m, nth_error (chart s) j = Some m ->
         lane m = l -> hit m = false ->
         (0.120 - rounding < Qabs (hitTime m - t))%Q) /\
      s' = set_input (Input.onKeyDown (input s) key) s /\
      chart s' = chart s /\ gameState s' = gameState s /\
      effects s' = effects s
  end.
Proof.
  intros Hr Hp Hl t s' rounding passes.
  pose proof (findNearestNote_spec (chart s) l t) as Hs.
  destruct (findNearestNote (chart s) l t) as [[i n] |] eqn:Ef.
  - destruct Hs as [Hi [Hw Hmin]].
    pose proof (handleKeyPress_judges key l i n s Hr Hp Hl Ef) as Hfin.
    cbv zeta in Hfin. fold t in Hfin. fold s' in Hfin.
    destruct Hfin as [F1 [F2 [F3 F4]]].
    pose proof Hw as Hw'. apply inWindow_spec in Hw'.
    split; [exact F1 |]. split; [exact Hi |].
    split; [exact Hw' |].
    split.
    { destruct Hw' as [_ [_ [W1 W2]]]. now apply window_outer. }
    split.
    { intros j m Hj Hm. apply (Hmin j m Hj). now apply inWindow_spec. }
    split; [exact F2 |]. split; [exact F3 | exact F4].
  - subst s'. rewrite (handleKeyPress_no_candidate key l s Hr Hp Hl Ef).
    split; [reflexivity |].
    assert (Hnone : forall j m, nth_error (chart s) j = Some m -> ~ passes m).
    { intros j m Hj Hm. apply inWindow_spec in Hm.
      rewrite (Hs j m Hj) in Hm. discriminate Hm. }
    split; [exact Hnone |]. split.
    { intros j m Hj Hm1 Hm2. apply Qnot_le_lt. intro Hin.
      apply (Hnone j m Hj). apply window_inner in Hin.
      split; [exact Hm1 |]. split; [exact Hm2 | exact Hin]. }
    repeat split.
Qed.

(** *** The judged flag is a latch *)

Lemma noteLatch_refl (n : Note) : noteLatch n n.
Proof. repeat split; auto. Qed.

Lemma noteLatch_trans (a b c : Note) :
  noteLatch a b -> noteLatch b c -> noteLatch a c.
Proof.
  intros [H1 [H2 H3]] [K1 [K2 K3]]. repeat split; try congruence. auto.
Qed.

Lemma chartLatch_refl (c : NoteChart) : chartLatch c c.
Proof. induction c; constructor; auto using noteLatch_refl. Qed.

Lemma chartLatch_trans (a b c : NoteChart) :
  chartLatch a b -> chartLatch b c -> chartLatch a c.
Proof.
  intro H. revert c. induction H as [| x y a b Hxy _ IH]; intros c Hbc;
    inversion Hbc as [| y' z b' c' Hyz Hbc']; subst; constructor.
  - exact (noteLatch_trans x y z Hxy Hyz).
  - exact (IH c' Hbc').
Qed.

Lemma chartLatch_nth (c c' : NoteChart) (i : nat) (n : Note) :
  chartLatch c c' -> nth_error c i = Some n ->
  exists n', nth_error c' i = Some n' /\ noteLatch n n'.
Proof.
  intro H. revert i. induction H as [| x y a b Hxy _ IH]; intros [| i] Hn;
    simpl in *; try discriminate.
  - injection Hn as <-. eauto.
  - eauto.
Qed.

Lemma markHit_latch (i : nat) (c : NoteChart) : chartLatch c (markHit i c).
Proof.
  revert i. induction c as [| n c IH]; intros [| i]; simpl.
  - constructor.
  - constructor.
  - constructor; [| apply chartLatch_refl].
    unfold noteLatch, setHit; simpl. auto.
  - constructor; [apply noteLatch_refl | apply IH].
Qed.

Lemma markHit_nth (i : nat) (c : NoteChart) (n : Note) :
  nth_error c i = Some n -> nth_error (markHit i c) i = Some (setHit n true).
Proof.
  revert i. induction c as [| m c IH]; intros [| i] H; simpl in *;
    try discriminate.
  - now injection H as <-.
  - auto.
Qed.

Lemma judgedCount_cons (n : Note) (c : NoteChart) :
  judgedCount (n :: c) = (if hit n then 1 else 0) + judgedCount c.
Proof.
  unfold judgedCount. cbn [filter].
  destruct (hit n); cbn [List.length]; lia.
Qed.

Lemma judgedCount_markHit (i : nat) (c : NoteChart) (n : Note) :
  nth_error c i = Some n -> hit n = false ->
  judgedCount (markHit i c) = judgedCount c + 1.
Proof.
  revert i. induction c as [| m c IH]; intros [| i] H Hh;
    cbn [nth_error markHit] in *; try discriminate.
  - injection H as ->. rewrite !judgedCount_cons, Hh.
    cbn [hit setHit]. lia.
  - rewrite !judgedCount_cons, (IH i H Hh). lia.
Qed.

Lemma judgments_processHit (g : GameState) (r : HitResult) :
  judgments (processHit g r) = judgments g + 1.
Proof.
  unfold judgments.
  destruct (rating r) eqn:E;
    [ rewrite (processHit_perfect _ r E)
    | rewrite (processHit_good _ r E)
    | rewrite (processHit_miss _ r E) ]; simpl; lia.
Qed.

Lemma advances_refl (s : GameLoop) : advances s s.
Proof.
  unfold advances. split; [apply chartLatch_refl |].
  split; [reflexivity |]. split; [lia |]. intro H. split; [exact H | lia].
Qed.

Lemma advances_trans (a b c : GameLoop) :
  advances a b -> advances b c -> advances a c.
Proof.
  intros [H1 [H2 [H3 H4]]] [K1 [K2 [K3 K4]]]. unfold advances.
  split; [eapply chartLatch_trans; eassumption |].
  split; [congruence |]. split; [lia |].
  intro Hb. destruct (H4 Hb) as [Hb' Hl]. destruct (K4 Hb') as [Hb'' Hl'].
  split; [exact Hb'' | lia].
Qed.

(** A state that differs from [s] in fields other than the chart, the
    accumulator, the duration and the tracker advances [s]. *)
Lemma advances_same (s s' : GameLoop) :
  chart s' = chart s -> gameState s' = gameState s ->
  chartDuration s' = chartDuration s ->
  lastComboMilestone s <= lastComboMilestone s' ->
  advances s s'.
Proof.
  intros Hc Hg Hd Hl. unfold advances. rewrite Hc, Hg.
  split; [apply chartLatch_refl |]. split; [exact Hd |]. split; [lia |].
  intro H. split; assumption.
Qed.

(** Judging the unjudged note at index [i]. *)
Lemma advances_judge (s s' : GameLoop) (i : nat) (n : Note) (r : HitResult) :
  nth_error (chart s) i = Some n -> hit n = false ->
  chart s' = markHit i (chart s) ->
  gameState s' = processHit (gameState s) r ->
  chartDuration s' = chartDuration s ->
  (comboBounded (gameState s) ->
     lastComboMilestone s <= lastComboMilestone s') ->
  advances s s'.
Proof.
  intros Hi Hh Hc Hg Hd Hl. unfold advances. rewrite Hc, Hg.
  split; [apply markHit_latch |]. split; [exact Hd |]. split.
  - rewrite judgments_processHit, (judgedCount_markHit i _ n Hi Hh). lia.
  - intro Hb. split; [now apply processHit_comboBounded | auto].
Qed.

(** *** The miss scan *)

Lemma checkMissedNote_advances (t : Q) (i : nat) (s : GameLoop) :
  let s' := snd (checkMissedNote t i s) in
  advances s s' /\
  forall n, nth_error (chart s) i = Some n -> late t n ->
            exists n', nth_error (chart s') i = Some n' /\ hit n' = true.
Proof.
  unfold checkMissedNote. rewrite bind_get.
  destruct (nth_error (chart s) i) as [note |] eqn:Ei.
  2:{ simpl. split; [apply advances_refl | discriminate]. }
  destruct (hit note) eqn:Eh.
  { simpl. split; [apply advances_refl |].
    intros n Hn _. injection Hn as <-. eauto. }
  destruct (Qltb (hitTime note - t) (-0.120)) eqn:El.
  2:{ simpl. split; [apply advances_refl |].
      intros n Hn Hl. injection Hn as <-.
      apply Qltb_false in El. unfold late in Hl. lra. }
  do 2 mstep. unfold showFeedback. rewrite bind_bind. do 2 mstep.
  set (result := evaluateHit note t).
  match goal with
  | |- context [snd ((if ?b then _ else _) ?x)] => set (s1 := x)
  end.
  assert (Hs1 : advances s s1 /\ chart s1 = markHit i (chart s)).
  { split; [| reflexivity].
    apply (advances_judge s s1 i note result Ei Eh);
      first [reflexivity | intros _; subst s1; proj_simpl; lia]. }
  destruct Hs1 as [Ha Hc].
  assert (Hfin : forall s2, chart s2 = chart s1 -> gameState s2 = gameState s1 ->
                   chartDuration s2 = chartDuration s1 ->
                   lastComboMilestone s2 = lastComboMilestone s1 ->
                   advances s s2 /\
                   forall n, Some note = Some n -> late t n ->
                     exists n', nth_error (chart s2) i = Some n' /\
                                hit n' = true).
  { intros s2 H1 H2 H3 H4. split.
    - apply (advances_trans s s1 s2 Ha).
      apply advances_same; try assumption. lia.
    - intros n Hn _. injection Hn as <-. rewrite H1, Hc.
      exists (setHit note true). split; [now apply markHit_nth | reflexivity]. }
  destruct (Rating_eqb (rating result) MISS).
  - apply Hfin; reflexivity.
  - apply Hfin; reflexivity.
Qed.

Lemma forEachIndex_advances (t : Q) (idxs : list nat) (s : GameLoop) :
  let s' := snd (forEachIndex idxs (checkMissedNote t) s) in
  advances s s' /\
  forall i n, In i idxs -> nth_error (chart s) i = Some n -> late t n ->
              exists n', nth_error (chart s') i = Some n' /\ hit n' = true.
Proof.
  revert s. induction idxs as [| i0 idxs IH]; intro s; simpl.
  - split; [apply advances_refl | intros i n []].
  - rewrite bind_exec.
    destruct (checkMissedNote_advances t i0 s) as [Ha0 Hj0].
    set (s1 := snd (checkMissedNote t i0 s)) in *.
    destruct (IH s1) as [Ha Hj].
    set (s2 := snd (forEachIndex idxs (checkMissedNote t) s1)) in *.
    split; [exact (advances_trans s s1 s2 Ha0 Ha) |].
    intros i n [<- | Hin] Hn Hl.
    + destruct (Hj0 n Hn Hl) as [n1 [Hn1 Hh1]].
      destruct Ha as [Hlatch _].
      destruct (chartLatch_nth _ _ _ _ Hlatch Hn1) as [n2 [Hn2 [_ [_ Hh2]]]].
      exists n2. split; [exact Hn2 | auto].
    + destruct Ha0 as [Hlatch _].
      destruct (chartLatch_nth _ _ _ _ Hlatch Hn) as [n1 [Hn1 [_ [Ht1 _]]]].
      apply (Hj i n1 Hin Hn1). unfold late in *. rewrite Ht1. exact Hl.
Qed.

Lemma checkMissedNotes_advances (t : Q) (s : GameLoop) :
  let s' := snd (checkMissedNotes t s) in
  advances s s' /\
  forall i n, nth_error (chart s) i = Some n -> late t n ->
              exists n', nth_error (chart s') i = Some n' /\ hit n' = true.
Proof.
  unfold checkMissedNotes. rewrite bind_get.
  destruct (forEachIndex_advances t (seq 0 (List.length (chart s))) s)
    as [Ha Hj].
  split; [exact Ha |].
  intros i n Hn Hl. apply (Hj i n); try assumption.
  apply in_seq. split; [lia |]. simpl.
  apply nth_error_Some. congruence.
Qed.

(** A running tick that does not end the session renders and then scans
    the chart with the song time it sampled. *)
Lemma loop_scan (s : GameLoop) :
  isRunning s = true ->
  (Audio.getSongTime (audioEngine s) <= chartDuration s)%Q ->
  exists E,
    exec loop s =
      set_animationFrameId true
        (snd (checkMissedNotes (Audio.getSongTime (audioEngine s))
                (set_effects E s))).
Proof.
  intros Hr Ht. apply Qltb_false in Ht.
  unfold exec, loop. mstep. rewrite Hr. cbn [negb].
  do 2 mstep. rewrite Ht. repeat mstep. proj_simpl.
  rewrite bind_exec. eexists. reflexivity.
Qed.

(** *** Every event advances the session *)

Lemma loop_not_running (s : GameLoop) :
  isRunning s = false -> exec loop s = s.
Proof.
  intro Hr. unfold exec, loop. mstep. rewrite Hr. reflexivity.
Qed.

Lemma processHit_combo_hit (g : GameState) (r : HitResult) :
  rating r <> MISS ->
  currentCombo (stats (processHit g r)) = currentCombo (stats g) + 1.
Proof.
  intro H. destruct (rating r) eqn:E;
    [ rewrite (processHit_perfect _ r E)
    | rewrite (processHit_good _ r E)
    | congruence ]; reflexivity.
Qed.

Lemma loop_advances (s : GameLoop) : advances s (exec loop s).
Proof.
  destruct (isRunning s) eqn:Hr.
  2:{ rewrite (loop_not_running s Hr). apply advances_refl. }
  destruct (Qlt_le_dec (chartDuration s) (Audio.getSongTime (audioEngine s)))
    as [Ht | Ht].
  - rewrite (loop_over s Hr Ht). apply advances_same; first [reflexivity | proj_simpl; lia].
  - destruct (loop_scan s Hr Ht) as [E ->].
    set (s1 := set_effects E s).
    destruct (checkMissedNotes_advances (Audio.getSongTime (audioEngine s)) s1)
      as [Ha _].
    apply (advances_trans s s1).
    { apply advances_same; first [reflexivity | subst s1; proj_simpl; lia]. }
    eapply advances_trans; [exact Ha |].
    apply advances_same; first [reflexivity | proj_simpl; lia].
Qed.

Lemma handleKeyPress_advances (key : string) (s : GameLoop) :
  advances s (exec (handleKeyPress key) s).
Proof.
  destruct (isRunning s) eqn:Hr.
  2:{ rewrite (handleKeyPress_not_running key s Hr). apply advances_refl. }
  destruct (Input.isKeyPressed (input s) key) eqn:Hp.
  { rewrite (handleKeyPress_held key s Hr Hp). apply advances_refl. }
  destruct (Input.getLane key) as [l |] eqn:Hl.
  2:{ rewrite (handleKeyPress_unmapped key s Hr Hp Hl).
      apply advances_same; first [reflexivity | proj_simpl; lia]. }
  destruct (findNearestNote (chart s) l (Audio.getSongTime (audioEngine s)))
    as [[i n] |] eqn:Ef.
  2:{ rewrite (handleKeyPress_no_candidate key l s Hr Hp Hl Ef).
      apply advances_same; first [reflexivity | proj_simpl; lia]. }
  pose proof (findNearestNote_spec (chart s) l
                (Audio.getSongTime (audioEngine s))) as Hs.
  rewrite Ef in Hs. destruct Hs as [Hi [Hw _]].
  apply inWindow_spec in Hw. destruct Hw as [_ [Hh _]].
  rewrite (handleKeyPress_candidate key l i n s Hr Hp Hl Ef).
  set (result := evaluateHit n (Audio.getSongTime (audioEngine s))) in *.
  destruct (Rating_eqb (rating result) MISS) eqn:Hb.
  - unfold exec. mstep. cbn [snd emit modify].
    apply (advances_judge s _ i n result Hi Hh);
      first [reflexivity | intros _; proj_simpl; lia].
  - apply Rating_eqb_neq in Hb.
    unfold exec. do 2 mstep.
    match goal with
    | |- context [checkComboMilestone ?c ?x] =>
        destruct (checkComboMilestone_frame c x) as [E [L [Hs HL]]]
    end.
    rewrite Hs.
    apply (advances_judge s _ i n result Hi Hh); try reflexivity.
    intros [Hc0 _]. proj_simpl. proj_simpl_in HL. apply HL.
    unfold getCombo. proj_simpl. rewrite (processHit_combo_hit _ _ Hb). lia.
Qed.

Lemma step_advances (s : GameLoop) (e : Event) : advances s (step s e).
Proof.
  destruct e; simpl.
  - apply advances_same; first [reflexivity | proj_simpl; lia].
  - apply loop_advances.
  - apply handleKeyPress_advances.
  - apply advances_same; first [reflexivity | simpl; lia].
  - destruct (feedbackTimeout s); [| apply advances_refl].
    apply advances_same; first [reflexivity | simpl; lia].
  - apply advances_same; first [reflexivity | proj_simpl; lia].
Qed.

Lemma run_advances (es : list Event) (s : GameLoop) : advances s (run s es).
Proof.
  revert s. induction es as [| e es IH]; intro s; simpl.
  - apply advances_refl.
  - eapply advances_trans; [apply step_advances | apply IH].
Qed.


(** During a session the milestone tracker is never lowered: the reset
    in [checkComboMilestone] is not reached, since the hit handler calls it
    with the combo of a hit, which is at least 1. *)
Lemma tracker_never_lowered (s : GameLoop) (es : list Event) :
  comboBounded (gameState s) ->
  lastComboMilestone s <= lastComboMilestone (run s es).
Proof.
  intro Hb. destruct (run_advances es s) as [_ [_ [_ H]]].
  exact (proj2 (H Hb)).
Qed.


(** *** The end of the session, on a concrete run *)

Lemma end_tick_witness :
  let s := run (session [mkNote 0 1 false]) [Advance 3.5] in
  isRunning s = true /\
  (chartDuration s < Audio.getSongTime (audioEngine s))%Q /\
  isRunning (exec loop s) = false.
Proof.
  intro s.
  assert (Hr : isRunning s = true) by reflexivity.
  assert (Ht : (chartDuration s < Audio.getSongTime (audioEngine s))%Q)
    by reflexivity.
  split; [exact Hr |]. split; [exact Ht |].
  exact (proj1 (proj2 (end_tick s Hr Ht))).
Defined.

(** C2, as stated, fails: after the tick that ends the session the audio
    engine is still playing and still holds its audio context; [stop] was
    not called on it. *)
Lemma end_tick_leaves_audio_playing :
  let s := run (session [mkNote 0 1 false]) [Advance 3.5] in
  let s' := step s Frame in
  isRunning s = true /\
  (chartDuration s < Audio.getSongTime (audioEngine s))%Q /\
  isRunning s' = false /\
  Audio.isPlaying (audioEngine s') = true /\
  audioEngine s' <> Audio.stop (audioEngine s).
Proof.
  vm_compute. repeat split; try reflexivity. intro H. discriminate H.
Qed.

(** *** Combo milestones *)

(** C3, on a concrete run.  Twenty-one notes in lane 0, one per second.
    The player hits the first ten (the chime for 10 sounds once), lets the
    eleventh pass (the scan at 11.5 s judges it a Miss and the combo is 0,
    but the tracker still reads 10), and hits the last ten: the combo is
    10 again and no second chime has sounded. *)
Theorem milestone_not_rearmed_after_miss :
  let s0 := session (laneZeroChart 21) in
  let sMiss := run s0 (taps 10 ++ [Advance 1.5; Frame]) in
  let sEnd := run sMiss ([Advance 0.5; KeyDown "a"; KeyUp "a"] ++ taps 9) in
  chimes (effects sMiss) = [10] /\
  missCount (stats (gameState sMiss)) = 1 /\
  getCombo (gameState sMiss) = 0 /\
  lastComboMilestone sMiss = 10 /\
  getCombo (gameState sEnd) = 10 /\
  allJudged (chart sEnd) = true /\
  chimes (effects sEnd) = [10].
Proof. vm_compute. repeat split; reflexivity. Qed.

(** *** Presses on concrete runs *)

Lemma press_candidate_witness :
  let s := run (session [mkNote 0 2 false]) [Advance 1] in
  isRunning s = true /\
  Input.isKeyPressed (input s) "a" = false /\
  Input.getLane "a" = Some 0 /\
  input (exec (handleKeyPress "a") s) = Input.onKeyDown (input s) "a" /\
  chart (exec (handleKeyPress "a") s) = chart s /\
  gameState (exec (handleKeyPress "a") s) = gameState s.
Proof.
  intro s.
  assert (Hr : isRunning s = true) by reflexivity.
  assert (Hp : Input.isKeyPressed (input s) "a" = false) by reflexivity.
  assert (Hl : Input.getLane "a" = Some 0) by reflexivity.
  pose proof (press_candidate s "a" 0 Hr Hp Hl) as H.
  vm_compute in H. destruct H as [Hi [_ [_ [_ [Hc [Hg _]]]]]].
  split; [exact Hr |]. split; [exact Hp |]. split; [exact Hl |].
  split; [exact Hi |]. split; [exact Hc | exact Hg].
Defined.

(** C8, as stated, fails twice.  With one note at 5 s and a press at the
    song time 5.12, a value of the audio clock, no unjudged note of the
    lane is within 0.120 s: the distance, 0.12000000000000011 in doubles,
    is larger.  But the lower bound [5.12 - 0.120] of the filter is the
    double 5, so the note passes the filter: the press judges it, the
    Judge rates it a Miss, and chart, counters, combo and feedback change.
    And a press that finds no candidate at all is still recorded by the
    input source, so the state after it is not the state before it. *)
Lemma press_candidate_as_stated_fails :
  let t := Double.lit 5.12 in
  let s := run (session [mkNote 0 5 false]) [Advance t] in
  let s' := step s (KeyDown "a") in
  let s2 := run (session [mkNote 0 2 false]) [Advance 1] in
  (isRunning s = true /\ Input.isKeyPressed (input s) "a" = false /\
   Input.getLane "a" = Some 0 /\
   (Audio.getSongTime (audioEngine s) == t)%Q /\
   chart s = [mkNote 0 5 false] /\
   ~ (Qabs (5 - Audio.getSongTime (audioEngine s)) <= 0.120)%Q /\
   (Double.sub (Audio.getSongTime (audioEngine s)) (Double.lit 0.120) == 5)%Q /\
   chart s' = [mkNote 0 5 true] /\
   rating (evaluateHit (mkNote 0 5 false) (Audio.getSongTime (audioEngine s)))
     = MISS /\
   missCount (stats (gameState s')) = 1 /\
   judgments (gameState s) = 0 /\
   currentFeedback s' = Some MISS) /\
  (isRunning s2 = true /\ Input.isKeyPressed (input s2) "a" = false /\
   findNearestNote (chart s2) 0 (Audio.getSongTime (audioEngine s2)) = None /\
   step s2 (KeyDown "a") <> s2).
Proof.
  vm_compute.
  repeat split;
    first [ reflexivity | intro H; discriminate H
          | intro H; apply H; reflexivity ].
Qed.

End LoopFacts.

(** * Further properties of the code *)

(** ** The accumulator fed by the Judge *)

Section AccumulatorFacts.

Import Scoring Loop Runs.


Lemma processHit_judge (g : GameState) (p : Note * Q) :
  judgedState g -> judgedState (processHit g (judge p)).
Proof.
  unfold judgedState, countsNonneg, weighted, judge.
  intros [Hs [[Hp [Hg Hm]] [Hc Hx]]].
  destruct (evaluateHit_cases (fst p) (snd p)) as [[_ E] | [[_ [_ E]] | [_ E]]];
    rewrite E.
  - rewrite processHit_perfect by reflexivity. simpl. lia.
  - rewrite processHit_good by reflexivity. simpl. lia.
  - rewrite processHit_miss by reflexivity. simpl. lia.
Qed.

Lemma processHits_judge (l : list (Note * Q)) (g : GameState) :
  judgedState g ->
  judgedState (processHits g (map judge l)) /\
  judgments (processHits g (map judge l)) =
    judgments g + Z.of_nat (List.length l).
Proof.
  revert g. induction l as [| p l IH]; intros g Hg.
  - simpl. split; [exact Hg | lia].
  - change (processHits g (map judge (p :: l)))
      with (processHits (processHit g (judge p)) (map judge l)).
    destruct (IH _ (processHit_judge g p Hg)) as [H1 H2].
    split; [exact H1 |].
    rewrite H2, judgments_processHit. cbn [List.length]. lia.
Qed.

(** X1.  Whatever notes and song times the Judge is asked about, after
    folding its results into a reset accumulator the score is
    100 * perfectCount + 50 * goodCount, the three counters add up to the
    number of judgments, none is negative, and maxCombo is at most the
    number of hits. *)
Theorem judged_score_is_weighted (l : list (Note * Q)) :
  let g := processHits Scoring.reset (map judge l) in
  score g = 100 * perfectCount (stats g) + 50 * goodCount (stats g) /\
  perfectCount (stats g) + goodCount (stats g) + missCount (stats g)
    = Z.of_nat (List.length l) /\
  countsNonneg g /\
  maxCombo (stats g) <= perfectCount (stats g) + goodCount (stats g).
Proof.
  intro g.
  assert (H0 : judgedState Scoring.reset).
  { unfold judgedState, countsNonneg, weighted. simpl. lia. }
  destruct (processHits_judge l Scoring.reset H0) as [[Hs [Hc [_ Hx]]] Hn].
  fold g in Hs, Hc, Hx, Hn. unfold weighted in Hs. unfold judgments in Hn.
  simpl in Hn. repeat split; try apply Hc; lia.
Qed.

(** Accuracy against a percentage, by cross-multiplication. *)
Lemma getAccuracy_ratio (g : GameState) :
  0 < judgments g ->
  (getAccuracy g == inject_Z (weighted g) / inject_Z (judgments g))%Q.
Proof.
  intro Ht. unfold getAccuracy. fold (judgments g).
  destruct (Z.eqb_spec (judgments g) 0) as [H0 | _]; [lia |].
  fold (weighted g). rewrite inject_Z_mult.
  assert (Hne : ~ (inject_Z (judgments g) == 0)%Q).
  { intro H. change 0%Q with (inject_Z 0) in H.
    rewrite inject_Z_injective in H. lia. }
  change (inject_Z 100) with 100%Q. field. exact Hne.
Qed.

Lemma getAccuracy_ge (g : GameState) (T : Z) :
  0 < judgments g ->
  (inject_Z T <= getAccuracy g)%Q <-> T * judgments g <= weighted g.
Proof.
  intro Ht. rewrite (getAccuracy_ratio g Ht).
  assert (Hpos : (0 < inject_Z (judgments g))%Q).
  { change 0%Q with (inject_Z 0). rewrite <- Zlt_Qlt. exact Ht. }
  rewrite Zle_Qle, inject_Z_mult. split; intro H.
  - apply (Qmult_le_r _ _ _ Hpos) in H.
    assert (E : (inject_Z (weighted g) / inject_Z (judgments g)
                 * inject_Z (judgments g) == inject_Z (weighted g))%Q).
    { field. intro K. rewrite K in Hpos. apply (Qlt_irrefl _ Hpos). }
    rewrite E in H. exact H.
  - apply Qle_shift_div_l; assumption.
Qed.

Lemma getAccuracy_le (g : GameState) (T : Z) :
  0 < judgments g ->
  (getAccuracy g <= inject_Z T)%Q <-> weighted g <= T * judgments g.
Proof.
  intro Ht. rewrite (getAccuracy_ratio g Ht).
  assert (Hpos : (0 < inject_Z (judgments g))%Q).
  { change 0%Q with (inject_Z 0). rewrite <- Zlt_Qlt. exact Ht. }
  rewrite Zle_Qle, inject_Z_mult. split; intro H.
  - apply (Qmult_le_r _ _ _ Hpos) in H.
    assert (E : (inject_Z (weighted g) / inject_Z (judgments g)
                 * inject_Z (judgments g) == inject_Z (weighted g))%Q).
    { field. intro K. rewrite K in Hpos. apply (Qlt_irrefl _ Hpos). }
    rewrite E in H. exact H.
  - apply Qle_shift_div_r; assumption.
Qed.

Lemma getAccuracy_none (g : GameState) :
  judgments g = 0 -> getAccuracy g = 0%Q.
Proof.
  intro H. unfold getAccuracy. fold (judgments g). rewrite H. reflexivity.
Qed.

(** X2.  With counters that are not negative, the accuracy lies between 0
    and 100; it is 0 before any judgment; it is 100 exactly when there is a
    judgment and every judgment is a Perfect, and 0 exactly when there is
    no Perfect and no Good. *)
Theorem accuracy_bounds (g : GameState) :
  countsNonneg g ->
  (0 <= getAccuracy g)%Q /\ (getAccuracy g <= 100)%Q /\
  (judgments g = 0 -> getAccuracy g = 0%Q) /\
  ((getAccuracy g == 100)%Q <->
     0 < judgments g /\ goodCount (stats g) = 0 /\ missCount (stats g) = 0) /\
  ((getAccuracy g == 0)%Q <->
     perfectCount (stats g) = 0 /\ goodCount (stats g) = 0).
Proof.
  intros [Hp [Hg Hm]].
  destruct (Z.eq_dec (judgments g) 0) as [H0 | H0].
  - rewrite (getAccuracy_none g H0). unfold judgments in H0.
    repeat split; intros; try discriminate; try lia.
    exfalso. unfold judgments in *. lia.
  - assert (Ht : 0 < judgments g) by (unfold judgments in *; lia).
    pose proof (getAccuracy_ge g 0 Ht) as G0.
    pose proof (getAccuracy_le g 0 Ht) as L0.
    pose proof (getAccuracy_ge g 100 Ht) as G100.
    pose proof (getAccuracy_le g 100 Ht) as L100.
    change (inject_Z 0) with 0%Q in G0, L0.
    change (inject_Z 100) with 100%Q in G100, L100.
    unfold weighted, judgments in *.
    split; [apply G0; lia |]. split; [apply L100; lia |].
    split; [lia |]. split; split.
    + intro E. assert (K : (100 <= getAccuracy g)%Q) by (rewrite E; apply Qle_refl).
      apply G100 in K. lia.
    + intros [_ [E1 E2]]. apply Qle_antisym; [apply L100 | apply G100]; lia.
    + intro E. assert (K : (getAccuracy g <= 0)%Q) by (rewrite E; apply Qle_refl).
      apply L0 in K. lia.
    + intros [E1 E2]. apply Qle_antisym; [apply L0 | apply G0]; lia.
Qed.

Lemma accuracy_bounds_witness :
  let g := processHits Scoring.reset
             [mkHitResult PERFECT 100 0; mkHitResult GOOD 50 0.1] in
  countsNonneg g /\ (getAccuracy g <= 100)%Q.
Proof.
  intro g.
  assert (H : countsNonneg g) by (unfold countsNonneg; simpl; lia).
  split; [exact H |].
  exact (proj1 (proj2 (accuracy_bounds g H))).
Defined.

(** X3.  The grade read off the counters, without any division: with no
    judgment the grade is F; otherwise the grade is at least the grade of
    breakpoint T (95 for S, 90 for A, 80 for B, 70 for C, 60 for D) exactly
    when 100 * perfectCount + 50 * goodCount is at least T times the number
    of judgments. *)
Theorem grade_by_counts (g : GameState) :
  (judgments g = 0 -> getGrade g = GradeF) /\
  (0 < judgments g ->
   forall gr T, breakpoint gr = Some T ->
     (gradeRank gr <= gradeRank (getGrade g) <->
      T * judgments g <= weighted g)).
Proof.
  split.
  - intro H. unfold getGrade. rewrite (getAccuracy_none g H). reflexivity.
  - intros Ht gr T Hb.
    pose proof (getAccuracy_ge g 95 Ht) as G95.
    pose proof (getAccuracy_ge g 90 Ht) as G90.
    pose proof (getAccuracy_ge g 80 Ht) as G80.
    pose proof (getAccuracy_ge g 70 Ht) as G70.
    pose proof (getAccuracy_ge g 60 Ht) as G60.
    change (inject_Z 95) with 95%Q in G95.
    change (inject_Z 90) with 90%Q in G90.
    change (inject_Z 80) with 80%Q in G80.
    change (inject_Z 70) with 70%Q in G70.
    change (inject_Z 60) with 60%Q in G60.
    rewrite <- Qleb_spec in G95, G90, G80, G70, G60.
    unfold getGrade.
    destruct (Qleb 95 (getAccuracy g)) eqn:E95;
    destruct (Qleb 90 (getAccuracy g)) eqn:E90;
    destruct (Qleb 80 (getAccuracy g)) eqn:E80;
    destruct (Qleb 70 (getAccuracy g)) eqn:E70;
    destruct (Qleb 60 (getAccuracy g)) eqn:E60;
    destruct gr; simpl in Hb; inversion Hb; subst T; simpl gradeRank;
    repeat match goal with
           | K : true = true <-> _ |- _ =>
               let K' := fresh in pose proof (proj1 K eq_refl) as K'; clear K
           | K : false = true <-> _ |- _ =>
               let K' := fresh in
               assert (K' := fun x => diff_false_true (proj2 K x)); clear K
           end;
    split; intro; try lia.
Qed.

Lemma grade_by_counts_witness :
  let g := processHits Scoring.reset
             (repeat (mkHitResult PERFECT 100 0) 8
              ++ repeat (mkHitResult GOOD 50 0.1) 2) in
  0 < judgments g /\ gradeRank GradeA <= gradeRank (getGrade g).
Proof.
  intro g.
  assert (Ht : 0 < judgments g) by reflexivity.
  split; [exact Ht |].
  apply (proj2 (grade_by_counts g) Ht GradeA 90 eq_refl).
  vm_compute. discriminate.
Defined.

Lemma processHit_maxCombo_mono (g : GameState) (r : HitResult) :
  maxCombo (stats g) <= maxCombo (stats (processHit g r)).
Proof.
  destruct (rating r) eqn:E;
    [ rewrite (processHit_perfect _ r E)
    | rewrite (processHit_good _ r E)
    | rewrite (processHit_miss _ r E) ]; simpl; lia.
Qed.

Lemma processHit_maxCombo_cases (g : GameState) (r : HitResult) :
  maxCombo (stats (processHit g r)) = maxCombo (stats g) \/
  maxCombo (stats (processHit g r)) = currentCombo (stats (processHit g r)).
Proof.
  destruct (rating r) eqn:E;
    [ rewrite (processHit_perfect _ r E)
    | rewrite (processHit_good _ r E)
    | rewrite (processHit_miss _ r E) ]; simpl; lia.
Qed.

(** X4.  After folding any judgments into a reset accumulator, maxCombo
    is the largest value currentCombo has had: no prefix of the fold ends
    with a larger currentCombo, and some prefix ends with exactly that
    value. *)
Theorem maxCombo_is_peak (rs : list HitResult) :
  let g := processHits Scoring.reset rs in
  (forall n, currentCombo (stats (processHits Scoring.reset (firstn n rs)))
             <= maxCombo (stats g)) /\
  (exists n, (n <= List.length rs)%nat /\
             currentCombo (stats (processHits Scoring.reset (firstn n rs)))
             = maxCombo (stats g)).
Proof.
  induction rs as [| r rs IH] using rev_ind.
  - simpl. split; [intros [| n]; simpl; lia | exists 0%nat; simpl; split; lia].
  - intro g. subst g. rewrite processHits_snoc.
    cbv zeta in IH. destruct IH as [IHle [m [Hm IHeq]]].
    set (g0 := processHits Scoring.reset rs) in *.
    assert (Hb : comboBounded (processHit g0 r)).
    { apply processHit_comboBounded. apply processHits_comboBounded.
      unfold comboBounded. simpl. lia. }
    split.
    + intro n. destruct (Nat.le_gt_cases n (List.length rs)) as [Hn | Hn].
      * rewrite firstn_app.
        replace (n - List.length rs)%nat with 0%nat by lia.
        simpl firstn. rewrite app_nil_r.
        specialize (IHle n). pose proof (processHit_maxCombo_mono g0 r). lia.
      * rewrite firstn_all2 by (rewrite length_app; simpl; lia).
        rewrite processHits_snoc. fold g0. apply Hb.
    + destruct (processHit_maxCombo_cases g0 r) as [E | E].
      * exists m. split; [rewrite length_app; simpl; lia |].
        rewrite firstn_app.
        replace (m - List.length rs)%nat with 0%nat by lia.
        simpl firstn. rewrite app_nil_r. congruence.
      * exists (List.length (rs ++ [r])). split; [lia |].
        rewrite firstn_all, processHits_snoc. fold g0. congruence.
Qed.

End AccumulatorFacts.

(** ** The Audio Clock over sequences of calls *)

Section AudioRunFacts.

Import Audio Runs.


Lemma apply_keeps_silent (e : WebAudioEngine) (o : Op) :
  isStart o = false -> isPlaying e = false -> isPlaying (apply e o) = false.
Proof.
  intros Ho Hp. destruct o; try discriminate Ho; simpl;
    unfold stop, setOffset, pause, resume, onended, advance;
    destruct (audioContext e); destruct (isPaused e);
    rewrite ?Hp; simpl; auto.
Qed.

Lemma applyAll_keeps_silent (ops : list Op) (e : WebAudioEngine) :
  forallb (fun o => negb (isStart o)) ops = true ->
  isPlaying e = false -> isPlaying (applyAll e ops) = false.
Proof.
  revert e. induction ops as [| o ops IH]; intros e Hops Hp; simpl in *.
  - exact Hp.
  - apply andb_true_iff in Hops. destruct Hops as [Ho Hops].
    apply negb_true_iff in Ho. apply IH; [exact Hops |].
    now apply apply_keeps_silent.
Qed.

(** X5.  An engine that is not playing reads song time 0 and stays that
    way under every sequence of calls and device events that contains no
    [start]: after [stop], from any state, and after the source node has
    ended while the engine was not paused.  While the engine is paused the
    end of the source is ignored. *)
Theorem silent_until_start (e : WebAudioEngine) (ops : list Op) :
  forallb (fun o => negb (isStart o)) ops = true ->
  (isPlaying e = false ->
     isPlaying (applyAll e ops) = false /\
     getSongTime (applyAll e ops) = 0%Q) /\
  getSongTime (applyAll (stop e) ops) = 0%Q /\
  (isPaused e = false -> getSongTime (applyAll (onended e) ops) = 0%Q) /\
  (isPaused e = true -> onended e = e).
Proof.
  intro Hops.
  assert (H : forall e0, isPlaying e0 = false ->
            isPlaying (applyAll e0 ops) = false /\
            getSongTime (applyAll e0 ops) = 0%Q).
  { intros e0 Hp. pose proof (applyAll_keeps_silent ops e0 Hops Hp) as Hs.
    split; [exact Hs | now apply getSongTime_not_playing]. }
  split; [apply H |]. split; [apply H; reflexivity |]. split.
  - intro Hq. apply H. unfold onended. rewrite Hq.
    destruct (isPlaying e) eqn:Hp; simpl; [reflexivity | exact Hp].
  - intro Hq. unfold onended. rewrite Hq, andb_false_r. reflexivity.
Qed.

Lemma silent_until_start_witness :
  let e := advance 3 (start (mkAudioContext 0 false) new) in
  let ops := [OpAdvance 5; OpPause; OpResume; OpSetOffset 0.25] in
  forallb (fun o => negb (isStart o)) ops = true /\
  (0 < getSongTime e)%Q /\
  getSongTime (applyAll (onended e) ops) = 0%Q.
Proof.
  intros e ops.
  assert (H : forallb (fun o => negb (isStart o)) ops = true) by reflexivity.
  split; [exact H |]. split; [reflexivity |].
  exact (proj1 (proj2 (proj2 (silent_until_start e ops H))) eq_refl).
Defined.







End AudioRunFacts.

(** ** The input handlers *)

Section InputFacts.

Import Runs.

Lemma lowerAscii_idem (c : ascii) :
  Input.lowerAscii (Input.lowerAscii c) = Input.lowerAscii c.
Proof.
  destruct c as [b0 b1 b2 b3 b4 b5 b6 b7].
  destruct b0, b1, b2, b3, b4, b5, b6, b7; reflexivity.
Qed.

Lemma toLowerCase_idem (k : string) :
  Input.toLowerCase (Input.toLowerCase k) = Input.toLowerCase k.
Proof.
  induction k as [| c k IH]; simpl; [reflexivity |].
  now rewrite lowerAscii_idem, IH.
Qed.

Lemma set_mem_add (a b : string) (l : set string) :
  set_mem string_dec b (set_add string_dec a l)
  = (String.eqb a b || set_mem string_dec b l)%bool.
Proof.
  destruct (String.eqb_spec a b) as [-> | Hne]; simpl.
  - apply set_mem_correct2. apply set_add_intro2. reflexivity.
  - destruct (set_mem string_dec b l) eqn:E.
    + apply set_mem_correct2. apply set_add_intro1.
      now apply set_mem_correct1 in E.
    + apply set_mem_complete2. intro H. apply set_add_elim in H.
      destruct H as [H | H]; [congruence |].
      apply (set_mem_complete1 string_dec) in E. contradiction.
Qed.

Lemma set_mem_remove (a b : string) (l : set string) :
  NoDup l ->
  set_mem string_dec b (set_remove string_dec a l)
  = (negb (String.eqb a b) && set_mem string_dec b l)%bool.
Proof.
  intro Hnd. destruct (String.eqb_spec a b) as [-> | Hne]; simpl.
  - apply set_mem_complete2. intro H.
    apply (set_remove_2 _ Hnd) in H. congruence.
  - destruct (set_mem string_dec b l) eqn:E.
    + apply set_mem_correct2. apply set_remove_3; [| congruence].
      now apply set_mem_correct1 in E.
    + apply set_mem_complete2. intro H. apply set_remove_1 in H.
      apply (set_mem_complete1 string_dec) in E. contradiction.
Qed.

Lemma applyKey_NoDup (i : Input.KeyboardInput) (ev : bool * string) :
  NoDup (Input.heldKeys i) -> NoDup (Input.heldKeys (applyKey i ev)).
Proof.
  intro H. unfold applyKey. destruct (fst ev); simpl.
  - now apply set_add_nodup.
  - now apply set_remove_nodup.
Qed.

Lemma runKeys_pressed (evs : list (bool * string)) (i : Input.KeyboardInput)
    (key : string) :
  NoDup (Input.heldKeys i) ->
  NoDup (Input.heldKeys (runKeys i evs)) /\
  Input.isKeyPressed (runKeys i evs) key
  = pressedAfter evs key (Input.isKeyPressed i key).
Proof.
  revert i. induction evs as [| [down k] evs IH]; intros i Hnd.
  - simpl. split; [exact Hnd | reflexivity].
  - change (runKeys i ((down, k) :: evs))
      with (runKeys (applyKey i (down, k)) evs).
    destruct (IH _ (applyKey_NoDup i (down, k) Hnd)) as [H1 H2].
    split; [exact H1 |]. rewrite H2. simpl pressedAfter. f_equal.
    unfold applyKey, Input.isKeyPressed. destruct down; simpl.
    + rewrite set_mem_add.
      destruct (String.eqb (Input.toLowerCase k) (Input.toLowerCase key));
        reflexivity.
    + rewrite (set_mem_remove _ _ _ Hnd).
      destruct (String.eqb (Input.toLowerCase k) (Input.toLowerCase key));
        reflexivity.
Qed.

(** X9.  After any sequence of key-down and key-up calls on a fresh
    KeyboardInput, a key is reported as pressed exactly when the last call
    for that key, in either letter case, was a key-down; the set of held
    keys never holds a key twice. *)
Theorem held_keys_follow_last_event (evs : list (bool * string))
    (key : string) :
  let i := runKeys Input.new evs in
  Input.isKeyPressed i key = pressedAfter evs key false /\
  Input.isKeyPressed i (Input.toLowerCase key) = Input.isKeyPressed i key /\
  NoDup (Input.heldKeys i).
Proof.
  intro i.
  destruct (runKeys_pressed evs Input.new key (NoDup_nil _)) as [Hnd Hp].
  split; [exact Hp |]. split; [| exact Hnd].
  unfold Input.isKeyPressed. now rewrite toLowerCase_idem.
Qed.

(** *** MultiInput: keys and touches on the same lanes *)

Lemma isTouchingLane_spec (touches : list (Z * Z)) (lane : Z) :
  MultiInput.isTouchingLane touches lane = true <->
  exists touchId, In (touchId, lane) touches.
Proof.
  unfold MultiInput.isTouchingLane. rewrite existsb_exists. split.
  - intros [[i l] [Hin Hl]]. simpl in Hl. apply Z.eqb_eq in Hl. subst l.
    now exists i.
  - intros [i Hin]. exists (i, lane). split; [exact Hin |].
    simpl. apply Z.eqb_refl.
Qed.

Lemma isKeyPressedForLane_spec (keys : set string) (lane : Z) :
  MultiInput.isKeyPressedForLane keys lane = true <->
  exists k, In k keys /\ Input.keyToLane k = Some lane.
Proof.
  unfold MultiInput.isKeyPressedForLane. rewrite existsb_exists. split.
  - intros [k [Hin Hl]]. exists k. split; [exact Hin |].
    destruct (Input.keyToLane k) as [l |]; [| discriminate].
    apply Z.eqb_eq in Hl. now subst l.
  - intros [k [Hin Hl]]. exists k. split; [exact Hin |].
    rewrite Hl. apply Z.eqb_refl.
Qed.

Lemma deleteTouch_In (touchId : Z) (touches : list (Z * Z)) (p : Z * Z) :
  In p (MultiInput.deleteTouch touchId touches) -> In p touches.
Proof. unfold MultiInput.deleteTouch. intro H. now apply filter_In in H. Qed.

Lemma laneFold_In (keys : list string) (acc : set Z) (lane : Z) :
  In lane
     (fold_left (fun acc key => match Input.keyToLane key with
                                | Some l => set_add Z.eq_dec l acc
                                | None => acc
                                end) keys acc) <->
  In lane acc \/ exists k, In k keys /\ Input.keyToLane k = Some lane.
Proof.
  revert acc. induction keys as [| k keys IH]; intro acc; simpl.
  - split; [now left | intros [H | [k [[] _]]]; exact H].
  - rewrite IH. split.
    + intros [H | [k' [Hin Hl]]].
      * destruct (Input.keyToLane k) as [l |] eqn:Ek; [| now left].
        apply set_add_elim in H. destruct H as [-> | H]; [| now left].
        right. exists k. split; [now left | exact Ek].
      * right. exists k'. split; [now right | exact Hl].
    + intros [H | [k' [[<- | Hin] Hl]]].
      * left. destruct (Input.keyToLane k); [| exact H].
        now apply set_add_intro1.
      * left. rewrite Hl. apply set_add_intro2. reflexivity.
      * right. exists k'. split; assumption.
Qed.

Lemma laneFold_NoDup (keys : list string) (acc : set Z) :
  NoDup acc ->
  NoDup (fold_left (fun acc key => match Input.keyToLane key with
                                   | Some l => set_add Z.eq_dec l acc
                                   | None => acc
                                   end) keys acc).
Proof.
  revert acc. induction keys as [| k keys IH]; intros acc H; simpl.
  - exact H.
  - apply IH. destruct (Input.keyToLane k); [| exact H].
    now apply set_add_nodup.
Qed.

Lemma multi_apply_wellFormed (m : MultiInput.MultiInput) (o : MultiInput.Op) :
  MultiInput.wellFormed m -> MultiInput.wellFormed (MultiInput.apply m o).
Proof.
  unfold MultiInput.wellFormed. intros [Hk Hl]. destruct o; simpl.
  - unfold MultiInput.onKeyDown.
    destruct (MultiInput.getLane key); simpl; split;
      auto using set_add_nodup.
  - unfold MultiInput.onKeyUp.
    destruct (MultiInput.getLane key); simpl;
      [ match goal with |- context [if ?b then _ else _] => destruct b end |];
      simpl; split; auto using set_remove_nodup.
  - simpl. split; auto using set_add_nodup.
  - unfold MultiInput.onTouchEnd.
    match goal with |- context [if ?b then _ else _] => destruct b end;
      simpl; split; auto using set_remove_nodup.
  - simpl. split; [exact Hk |]. apply laneFold_NoDup. constructor.
Qed.

Lemma multi_apply_covers (m : MultiInput.MultiInput) (o : MultiInput.Op) :
  (forall lane, MultiInput.held m lane ->
                MultiInput.isLanePressed m lane = true) ->
  forall lane, MultiInput.held (MultiInput.apply m o) lane ->
               MultiInput.isLanePressed (MultiInput.apply m o) lane = true.
Proof.
  intros Hcov lane Hheld.
  assert (Hold : MultiInput.held m lane -> In lane (MultiInput.activeLanes m)).
  { intro H. apply (set_mem_correct1 Z.eq_dec). now apply Hcov. }
  unfold MultiInput.isLanePressed. apply set_mem_correct2.
  destruct o; simpl in *.
  - (* key down *)
    unfold MultiInput.onKeyDown, MultiInput.getLane, Input.getLane in *.
    destruct (Input.keyToLane (Input.toLowerCase key)) as [l0 |] eqn:Ek;
      simpl in *.
    + destruct Hheld as [[k [Hin Hl]] | Ht].
      * apply set_add_elim in Hin. destruct Hin as [-> | Hin].
        -- assert (lane = l0) by congruence. subst lane.
           apply set_add_intro2. reflexivity.
        -- apply set_add_intro1. apply Hold. left. now exists k.
      * apply set_add_intro1. apply Hold. now right.
    + destruct Hheld as [[k [Hin Hl]] | Ht].
      * apply set_add_elim in Hin. destruct Hin as [-> | Hin].
        -- congruence.
        -- apply Hold. left. now exists k.
      * apply Hold. now right.
  - (* key up *)
    unfold MultiInput.onKeyUp, MultiInput.getLane, Input.getLane in *.
    set (keys' := set_remove string_dec (Input.toLowerCase key)
                             (MultiInput.heldKeys m)) in *.
    assert (Hsub : forall l,
              (exists k, In k keys' /\ Input.keyToLane k = Some l) ->
              exists k, In k (MultiInput.heldKeys m) /\
                        Input.keyToLane k = Some l).
    { intros l [k [Hin Hl]]. exists k. split; [| exact Hl].
      subst keys'. now apply set_remove_1 in Hin. }
    destruct (Input.keyToLane (Input.toLowerCase key)) as [l0 |] eqn:Ek.
    + destruct (negb (MultiInput.isKeyPressedForLane keys' l0)
                && negb (MultiInput.isTouchingLane
                           (MultiInput.activeTouches m) l0)) eqn:Erm;
        unfold MultiInput.held in Hheld; simpl in *.
      * apply andb_true_iff in Erm. destruct Erm as [E1 E2].
        apply negb_true_iff in E1. apply negb_true_iff in E2.
        assert (Hne : lane <> l0).
        { intros ->. destruct Hheld as [Hk | Ht].
          - apply isKeyPressedForLane_spec in Hk. congruence.
          - apply isTouchingLane_spec in Ht. congruence. }
        apply set_remove_3; [| exact Hne]. apply Hold.
        destruct Hheld as [Hk | Ht]; [left; now apply Hsub | now right].
      * apply Hold.
        destruct Hheld as [Hk | Ht]; [left; now apply Hsub | now right].
    + unfold MultiInput.held in Hheld. simpl in *. apply Hold.
      destruct Hheld as [Hk | Ht]; [left; now apply Hsub | now right].
  - (* touch start *)
    destruct Hheld as [Hk | [i Hin]].
    + apply set_add_intro1. apply Hold. now left.
    + simpl in Hin. destruct Hin as [Heq | Hin].
      * injection Heq as _ <-. apply set_add_intro2. reflexivity.
      * apply set_add_intro1. apply Hold. right. exists i.
        now apply deleteTouch_In in Hin.
  - (* touch end *)
    unfold MultiInput.onTouchEnd in *.
    set (touches' := MultiInput.deleteTouch touchId
                       (MultiInput.activeTouches m)) in *.
    assert (Hsub : forall l, (exists i, In (i, l) touches') ->
                             exists i, In (i, l) (MultiInput.activeTouches m)).
    { intros l [i Hin]. exists i. subst touches'.
      now apply deleteTouch_In in Hin. }
    destruct (negb (MultiInput.isTouchingLane touches' lane0)
              && negb (MultiInput.isKeyPressedForLane
                         (MultiInput.heldKeys m) lane0)) eqn:Erm;
      unfold MultiInput.held in Hheld; simpl in *.
    + apply andb_true_iff in Erm. destruct Erm as [E1 E2].
      apply negb_true_iff in E1. apply negb_true_iff in E2.
      assert (Hne : lane <> lane0).
      { intros ->. destruct Hheld as [Hk | Ht].
        - apply isKeyPressedForLane_spec in Hk. congruence.
        - apply isTouchingLane_spec in Ht. congruence. }
      apply set_remove_3; [| exact Hne]. apply Hold.
      destruct Hheld as [Hk | Ht]; [now left | right; now apply Hsub].
    + apply Hold.
      destruct Hheld as [Hk | Ht]; [now left | right; now apply Hsub].
  - (* clear touches *)
    apply laneFold_In. right.
    destruct Hheld as [Hk | [i []]]. exact Hk.
Qed.

Lemma multi_run_covers (ops : list MultiInput.Op) (m : MultiInput.MultiInput) :
  (forall lane, MultiInput.held m lane ->
                MultiInput.isLanePressed m lane = true) ->
  forall lane, MultiInput.held (MultiInput.run m ops) lane ->
               MultiInput.isLanePressed (MultiInput.run m ops) lane = true.
Proof.
  revert m. induction ops as [| o ops IH]; intros m H; simpl.
  - exact H.
  - apply IH. now apply multi_apply_covers.
Qed.

(** X10.  After any sequence of key and touch calls on a fresh
    MultiInput, every lane that a held key maps to or that a live touch is
    on is reported as pressed; and after [clearTouches] no touch is left
    and the lanes reported as pressed are exactly those of the held keys. *)
Theorem pressed_lanes_cover_keys_and_touches (ops : list MultiInput.Op) :
  let m := MultiInput.run MultiInput.new ops in
  (forall lane, MultiInput.held m lane ->
                MultiInput.isLanePressed m lane = true) /\
  MultiInput.activeTouches (MultiInput.clearTouches m) = [] /\
  (forall lane,
     MultiInput.isLanePressed (MultiInput.clearTouches m) lane = true <->
     exists k, In k (MultiInput.heldKeys m) /\
               Input.keyToLane k = Some lane).
Proof.
  intro m. split; [| split; [reflexivity |]].
  - apply multi_run_covers. intros lane [[k [[] _]] | [i []]].
  - intro lane. unfold MultiInput.isLanePressed, MultiInput.clearTouches.
    simpl. split.
    + intro H. apply set_mem_correct1 in H. apply laneFold_In in H.
      destruct H as [[] | H]. exact H.
    + intro H. apply set_mem_correct2. apply laneFold_In. now right.
Qed.

(** The other direction can fail: a touch id that starts on a second lane
    before it has ended leaves the first lane reported as pressed. *)
Example stale_lane_after_moved_touch :
  let m := MultiInput.run MultiInput.new
             [MultiInput.TouchStart 0 7; MultiInput.TouchStart 1 7;
              MultiInput.TouchEnd 1 7] in
  MultiInput.activeTouches m = [] /\ MultiInput.heldKeys m = [] /\
  MultiInput.isLanePressed m 0 = true.
Proof. repeat split. Qed.

End InputFacts.

(** ** Whole sessions *)

Section SessionFacts.

Import Scoring Loop Runs.
Local Open Scope loop_scope.

Ltac mstep :=
  first [ rewrite bind_get | rewrite bind_modify | rewrite bind_emit ];
  cbv beta.

Ltac proj_simpl :=
  cbn [isRunning animationFrameId feedbackTimeout currentFeedback
       chartDuration lastComboMilestone audioEngine input gameState chart
       effects set_isRunning set_animationFrameId set_feedbackTimeout
       set_currentFeedback set_lastComboMilestone set_audioEngine set_input
       set_gameState set_chart set_effects].

Lemma missOnly_refl (g : GameState) : missOnly g g.
Proof. unfold missOnly. repeat split; lia. Qed.

Lemma missOnly_trans (a b c : GameState) :
  missOnly a b -> missOnly b c -> missOnly a c.
Proof.
  unfold missOnly. intros [H1 [H2 [H3 [H4 [H5 H6]]]]] [K1 [K2 [K3 [K4 [K5 K6]]]]].
  repeat split; try congruence; lia.
Qed.

Lemma missCues_app (a b : nat) :
  missCues (a + b) = missCues a ++ missCues b.
Proof.
  unfold missCues. now rewrite repeat_app, concat_app.
Qed.

Lemma scanStep_refl (s : GameLoop) : scanStep s s.
Proof.
  unfold scanStep. do 5 (split; [reflexivity |]).
  split; [apply missOnly_refl |].
  exists []. rewrite app_nil_r. split; [reflexivity |].
  split; [reflexivity |]. rewrite Z.sub_diag. split; reflexivity.
Qed.

Lemma scanStep_trans (a b c : GameLoop) :
  scanStep a b -> scanStep b c -> scanStep a c.
Proof.
  intros [H1 [H2 [H3 [H4 [H5 [H6 [E [HE [HF [HN HC]]]]]]]]]]
         [K1 [K2 [K3 [K4 [K5 [K6 [F [KE [KF [KN KC]]]]]]]]]].
  unfold scanStep. do 5 (split; [congruence |]).
  split; [eapply missOnly_trans; eassumption |].
  exists (E ++ F). split; [| split; [| split]].
  - rewrite KE, HE. now rewrite app_assoc.
  - rewrite forallb_app, HF, KF. reflexivity.
  - rewrite length_app. lia.
  - rewrite HC, KC, <- missCues_app. f_equal.
    destruct H6 as [_ [_ [_ [_ [Ha _]]]]].
    destruct K6 as [_ [_ [_ [_ [Hb _]]]]].
    rewrite <- Z2Nat.inj_add by lia. f_equal. lia.
Qed.

Lemma late_is_miss (t : Q) (n : Note) :
  late t n ->
  evaluateHit n t = mkHitResult MISS 0 (Qabs (hitTime n - t)).
Proof.
  unfold late. intro H. apply evaluateHit_miss.
  pose proof (Qle_Qabs (- (hitTime n - t))) as K.
  rewrite Qabs_opp in K. lra.
Qed.

Lemma checkMissedNote_scan (t : Q) (i : nat) (s : GameLoop) :
  scanStep s (snd (checkMissedNote t i s)).
Proof.
  unfold checkMissedNote. rewrite bind_get.
  destruct (nth_error (chart s) i) as [note |] eqn:Ei;
    [| apply scanStep_refl].
  destruct (hit note) eqn:Eh; [apply scanStep_refl |].
  destruct (Qltb (hitTime note - t) (-0.120)) eqn:El;
    [| apply scanStep_refl].
  apply Qltb_spec in El. rewrite (late_is_miss t note El).
  cbn [rating Rating_eqb].
  do 2 mstep. unfold showFeedback. rewrite bind_bind. do 3 mstep.
  unfold scanStep. cbn [snd emit modify]. proj_simpl.
  rewrite processHit_miss by reflexivity.
  do 5 (split; [reflexivity |]).
  split; [unfold missOnly; simpl; repeat split; lia |].
  exists [SetShake 5; PlayMiss]. split; [now rewrite <- app_assoc |].
  split; [reflexivity |]. cbn [List.length stats missCount].
  split; [lia |].
  replace (missCount (stats (gameState s)) + 1
           - missCount (stats (gameState s))) with 1 by lia.
  reflexivity.
Qed.

Lemma forEachIndex_scan (t : Q) (idxs : list nat) (s : GameLoop) :
  scanStep s (snd (forEachIndex idxs (checkMissedNote t) s)).
Proof.
  revert s. induction idxs as [| i idxs IH]; intro s; simpl.
  - apply scanStep_refl.
  - rewrite bind_exec.
    eapply scanStep_trans; [apply checkMissedNote_scan | apply IH].
Qed.

Lemma checkMissedNotes_scan (t : Q) (s : GameLoop) :
  scanStep s (snd (checkMissedNotes t s)).
Proof.
  unfold checkMissedNotes. rewrite bind_get. apply forEachIndex_scan.
Qed.

(** A running tick that does not end the session, in full. *)
Lemma loop_render (s : GameLoop) :
  isRunning s = true ->
  (Audio.getSongTime (audioEngine s) <= chartDuration s)%Q ->
  exec loop s =
    set_animationFrameId true
      (snd (checkMissedNotes (Audio.getSongTime (audioEngine s))
              (set_effects
                 (effects s
                  ++ renderCalls s (Audio.getSongTime (audioEngine s)))
                 s))).
Proof.
  intros Hr Ht. apply Qltb_false in Ht.
  unfold exec, loop. mstep. rewrite Hr. cbn [negb].
  do 2 mstep. rewrite Ht. repeat mstep. proj_simpl.
  rewrite bind_exec. cbn [fst snd modify].
  unfold renderCalls. rewrite <- !app_assoc. reflexivity.
Qed.

(** *** The milestone check and the hit handler, case by case *)

Lemma milestoneLoop_cases (ms : list Z) (combo : Z) (s : GameLoop) :
  snd (milestoneLoop ms combo s) = s \/
  (In combo ms /\ lastComboMilestone s < combo /\
   snd (milestoneLoop ms combo s) =
     set_lastComboMilestone combo
       (set_effects (effects s ++ [PlayComboChime combo]) s)).
Proof.
  induction ms as [| m ms IH]; simpl.
  - now left.
  - mstep.
    destruct (Z.eqb combo m && Z.ltb (lastComboMilestone s) m) eqn:Ec.
    + apply andb_true_iff in Ec. destruct Ec as [E1 E2].
      apply Z.eqb_eq in E1. apply Z.ltb_lt in E2. subst m.
      right. split; [now left |]. split; [exact E2 | reflexivity].
    + destruct IH as [IH | [H1 [H2 H3]]]; [now left |].
      right. split; [now right |]. split; assumption.
Qed.

Lemma checkComboMilestone_cases (combo : Z) (s : GameLoop) :
  (combo <> 0 /\ snd (checkComboMilestone combo s) = s) \/
  (combo = 0 /\
   snd (checkComboMilestone combo s) = set_lastComboMilestone 0 s) \/
  (In combo milestones /\ lastComboMilestone s < combo /\
   snd (checkComboMilestone combo s) =
     set_lastComboMilestone combo
       (set_effects (effects s ++ [PlayComboChime combo]) s)).
Proof.
  unfold checkComboMilestone. rewrite bind_exec.
  destruct (milestoneLoop_cases milestones combo s) as [E | [H1 [H2 E]]];
    rewrite E.
  - destruct (Z.eqb_spec combo 0) as [H0 | H0].
    + right; left. split; [exact H0 | reflexivity].
    + left. split; [exact H0 | reflexivity].
  - assert (H0 : combo <> 0).
    { intros ->. unfold milestones in H1. simpl in H1.
      repeat (destruct H1 as [H1 | H1]; [discriminate H1 |]). exact H1. }
    apply Z.eqb_neq in H0. rewrite H0.
    right; right. split; [exact H1 |]. split; [exact H2 | reflexivity].
Qed.

Lemma handleKeyPress_cases (key : string) (s : GameLoop) :
  let s' := exec (handleKeyPress key) s in
  let t := Audio.getSongTime (audioEngine s) in
  ((isRunning s = false \/ Input.isKeyPressed (input s) key = true) /\
   s' = s) \/
  (isRunning s = true /\ Input.isKeyPressed (input s) key = false /\
   s' = set_input (Input.onKeyDown (input s) key) s) \/
  (exists l i n,
     isRunning s = true /\ Input.isKeyPressed (input s) key = false /\
     Input.getLane key = Some l /\
     findNearestNote (chart s) l t = Some (i, n) /\
     nth_error (chart s) i = Some n /\ inWindow l t n = true /\
     ((rating (evaluateHit n t) = MISS /\ s' = missState s key i n) \/
      (rating (evaluateHit n t) <> MISS /\
       let s1 := hitState s key i n in
       let combo := getCombo (gameState s1) in
       (combo <> 0 /\ s' = s1) \/
       (combo = 0 /\ s' = set_lastComboMilestone 0 s1) \/
       (In combo milestones /\ lastComboMilestone s < combo /\
        s' = set_lastComboMilestone combo
               (set_effects (effects s1 ++ [PlayComboChime combo]) s1))))).
Proof.
  intros s' t. subst s'.
  destruct (isRunning s) eqn:Hr.
  2:{ left. split; [now left | now apply handleKeyPress_not_running]. }
  destruct (Input.isKeyPressed (input s) key) eqn:Hp.
  { left. split; [now right | now apply handleKeyPress_held]. }
  destruct (Input.getLane key) as [l |] eqn:Hl.
  2:{ right; left. repeat split. now apply handleKeyPress_unmapped. }
  destruct (findNearestNote (chart s) l t) as [[i n] |] eqn:Ef.
  2:{ right; left. repeat split.
      now apply (handleKeyPress_no_candidate key l). }
  right; right. exists l, i, n.
  pose proof (findNearestNote_spec (chart s) l t) as Hs.
  rewrite Ef in Hs. destruct Hs as [Hi [Hw _]].
  repeat (split; [first [reflexivity | assumption] |]).
  rewrite (handleKeyPress_candidate key l i n s Hr Hp Hl Ef). fold t.
  destruct (Rating_eqb (rating (evaluateHit n t)) MISS) eqn:Hm.
  - left. apply Rating_eqb_eq in Hm. split; [exact Hm |].
    unfold exec. mstep. cbn [snd emit modify]. unfold missState.
    proj_simpl. fold t. now rewrite <- app_assoc.
  - right. apply Rating_eqb_neq in Hm. split; [exact Hm |].
    intros s1 combo.
    unfold exec. do 2 mstep.
    match goal with
    | |- context [checkComboMilestone ?c ?x] =>
        change x with s1; change c with combo
    end.
    destruct (checkComboMilestone_cases combo s1)
      as [[H0 E] | [[H0 E] | [H1 [H2 E]]]].
    + left. split; assumption.
    + right; left. split; assumption.
    + right; right. split; [exact H1 |]. split; [exact H2 | exact E].
Qed.

(** The Judge's result for a note, by its rating. *)
Lemma evaluateHit_by_rating (n : Note) (t : Q) :
  evaluateHit n t
  = mkHitResult (rating (evaluateHit n t))
      (match rating (evaluateHit n t) with
       | PERFECT => 100 | GOOD => 50 | MISS => 0
       end)
      (Qabs (hitTime n - t)).
Proof.
  destruct (evaluateHit_cases n t) as [[_ E] | [[_ [_ E]] | [_ E]]];
    rewrite E; reflexivity.
Qed.

(** What a handled press leaves in place. *)
Lemma handleKeyPress_keeps (key : string) (s : GameLoop) :
  let s' := exec (handleKeyPress key) s in
  isRunning s' = isRunning s /\ audioEngine s' = audioEngine s /\
  chartDuration s' = chartDuration s /\
  (isRunning s = true -> Input.isKeyPressed (input s) key = false ->
   input s' = Input.onKeyDown (input s) key).
Proof.
  intro s'.
  destruct (handleKeyPress_cases key s)
    as [[Hc E] | [[Hr [Hp E]] | [l [i [n [Hr [Hp [_ [_ [_ [_ E]]]]]]]]]]];
    fold s' in E.
  - rewrite E. repeat split. intros Hr Hp.
    destruct Hc as [Hc | Hc]; congruence.
  - rewrite E. repeat split.
  - cbv zeta in E.
    destruct E as [[_ E] | [_ [[_ E] | [[_ E] | [_ [_ E]]]]]]; rewrite E;
      repeat split.
Qed.

(** X11.  A key that is held is debounced: a second key-down of the same
    key, in either letter case, before its key-up changes nothing at all,
    whatever the first one did. *)
Theorem held_key_press_is_ignored (s : GameLoop) (key key' : string) :
  Input.toLowerCase key' = Input.toLowerCase key ->
  step (step s (KeyDown key)) (KeyDown key') = step s (KeyDown key).
Proof.
  intro Hk. cbn [step].
  assert (Hsame : forall i, Input.isKeyPressed i key'
                            = Input.isKeyPressed i key).
  { intro i. unfold Input.isKeyPressed. now rewrite Hk. }
  destruct (handleKeyPress_keeps key s) as [Hr [_ [_ Hi]]].
  destruct (isRunning s) eqn:Er.
  2:{ rewrite (handleKeyPress_not_running key s Er).
      now apply handleKeyPress_not_running. }
  destruct (Input.isKeyPressed (input s) key) eqn:Ep.
  { rewrite (handleKeyPress_held key s Er Ep).
    apply handleKeyPress_held; [exact Er | now rewrite Hsame]. }
  apply handleKeyPress_held; [exact Hr |].
  rewrite Hsame, (Hi eq_refl eq_refl).
  unfold Input.isKeyPressed, Input.onKeyDown. simpl.
  rewrite set_mem_add, String.eqb_refl. reflexivity.
Qed.

Lemma held_key_press_is_ignored_witness :
  let s := run (session [mkNote 0 1 false; mkNote 0 1.1 false]) [Advance 1] in
  Input.toLowerCase "A" = Input.toLowerCase "a" /\
  judgments (gameState (step s (KeyDown "a"))) = 1 /\
  step (step s (KeyDown "a")) (KeyDown "A") = step s (KeyDown "a").
Proof.
  intro s.
  assert (H : Input.toLowerCase "A" = Input.toLowerCase "a") by reflexivity.
  split; [exact H |]. split; [vm_compute; reflexivity |].
  exact (held_key_press_is_ignored s "a" "A" H).
Defined.

(** X12.  Once the loop is not running (the session has ended, or [stop]
    was called, or it never started), no sequence of frames, presses,
    releases, timers and clock advances judges a note, changes the
    accumulator or the milestone tracker, makes a call on the renderer,
    the sound effects or the end screen, or sets the loop running again. *)
Theorem not_running_is_inert (s : GameLoop) (es : list Event) :
  isRunning s = false ->
  let s' := run s es in
  isRunning s' = false /\ chart s' = chart s /\
  gameState s' = gameState s /\ effects s' = effects s /\
  lastComboMilestone s' = lastComboMilestone s /\
  chartDuration s' = chartDuration s.
Proof.
  revert s. induction es as [| e es IH]; intros s Hr.
  - repeat split; assumption.
  - change (run s (e :: es)) with (run (step s e) es).
    assert (H : isRunning (step s e) = false /\ chart (step s e) = chart s /\
                gameState (step s e) = gameState s /\
                effects (step s e) = effects s /\
                lastComboMilestone (step s e) = lastComboMilestone s /\
                chartDuration (step s e) = chartDuration s).
    { destruct e; cbn [step]; proj_simpl.
      - repeat split; assumption.
      - rewrite (loop_not_running s Hr). repeat split; assumption.
      - rewrite (handleKeyPress_not_running key s Hr).
        repeat split; assumption.
      - repeat split; assumption.
      - destruct (feedbackTimeout s); repeat split; assumption.
      - repeat split; assumption. }
    destruct H as [H1 [H2 [H3 [H4 [H5 H6]]]]].
    destruct (IH _ H1) as [K1 [K2 [K3 [K4 [K5 K6]]]]].
    cbv zeta. repeat split; congruence.
Qed.

Lemma not_running_is_inert_witness :
  let s := run (session [mkNote 0 1 false; mkNote 0 9 false])
               [Advance 2; Frame] in
  let s0 := exec stop s in
  isRunning s0 = false /\
  gameState (run s0 [Advance 7; KeyDown "a"; Frame]) = gameState s0.
Proof.
  intros s s0.
  assert (Hr : isRunning s0 = false) by (vm_compute; reflexivity).
  split; [exact Hr |].
  exact (proj1 (proj2 (proj2
           (not_running_is_inert s0 [Advance 7; KeyDown "a"; Frame] Hr)))).
Defined.


(** *** What one frame does *)







(** *** Judgment completeness *)







Lemma frame_summary (s : GameLoop) :
  let t := Audio.getSongTime (audioEngine s) in
  let s' := exec loop s in
  missOnly (gameState s) (gameState s') /\
  lastComboMilestone s' = lastComboMilestone s /\
  audioEngine s' = audioEngine s /\ chartDuration s' = chartDuration s /\
  input s' = input s /\
  ((isRunning s = false /\ s' = s) \/
   (isRunning s = true /\ (chartDuration s < t)%Q /\
    isRunning s' = false /\ gameState s' = gameState s /\
    chart s' = chart s /\
    effects s' =
      effects s ++
        [EndScreenShow (getStats (gameState s)) (getScore (gameState s))
                       (getAccuracy (gameState s)) (getGrade (gameState s))]) \/
   (isRunning s = true /\ (t <= chartDuration s)%Q /\
    isRunning s' = true /\
    exists cues,
      effects s' = effects s ++ renderCalls s t ++ cues /\
      forallb isMissCue cues = true /\
      cues = missCues (Z.to_nat (missCount (stats (gameState s'))
                                 - missCount (stats (gameState s)))))).
Proof.
  intros t s'. subst s'.
  destruct (isRunning s) eqn:Hr.
  2:{ rewrite (loop_not_running s Hr).
      repeat (split; [first [reflexivity | apply missOnly_refl] |]).
      left. split; reflexivity. }
  destruct (Qlt_le_dec (chartDuration s) t) as [Ht | Ht].
  - rewrite (loop_over s Hr Ht). proj_simpl.
    repeat (split; [first [reflexivity | apply missOnly_refl] |]).
    right; left. repeat split. exact Ht.
  - rewrite (loop_render s Hr Ht). fold t.
    set (s0 := set_effects (effects s ++ renderCalls s t) s).
    destruct (checkMissedNotes_scan t s0)
      as [H1 [H2 [H3 [H4 [H5 [H6 [E [HE [HF [_ HN]]]]]]]]]].
    proj_simpl.
    split; [exact H6 |]. split; [exact H5 |]. split; [exact H2 |].
    split; [exact H4 |]. split; [exact H3 |].
    right; right. split; [reflexivity |]. split; [exact Ht |].
    split; [rewrite H1; exact Hr |].
    exists E. split; [| split; [exact HF | exact HN]].
    rewrite HE. subst s0. proj_simpl. now rewrite <- app_assoc.
Qed.

(** X15.  A tick never scores: it leaves the score, the Perfect and Good
    counts, maxCombo and the milestone tracker as they are, and the combo
    either as it is or at 0.  A tick of a loop that is not running does
    nothing; a tick past [chartDuration] only shows the end screen; any
    other tick makes the six render calls in the order clear, lanes, hit
    line, notes, score, feedback, on the state at the start of the tick,
    followed by a shake of intensity 5 and then the miss sound, once for
    each note it judges a Miss, and nothing else. *)
Theorem frame_never_scores (s : GameLoop) :
  let t := Audio.getSongTime (audioEngine s) in
  let s' := step s Frame in
  let misses := Z.to_nat (missCount (stats (gameState s'))
                          - missCount (stats (gameState s))) in
  missOnly (gameState s) (gameState s') /\
  lastComboMilestone s' = lastComboMilestone s /\
  ((isRunning s = false /\ s' = s) \/
   (isRunning s = true /\ (chartDuration s < t)%Q /\
    isRunning s' = false /\ gameState s' = gameState s /\
    effects s' =
      effects s ++
        [EndScreenShow (getStats (gameState s)) (getScore (gameState s))
                       (getAccuracy (gameState s)) (getGrade (gameState s))]) \/
   (isRunning s = true /\ (t <= chartDuration s)%Q /\
    isRunning s' = true /\
    effects s' =
      effects s ++ renderCalls s t
      ++ List.concat (repeat [SetShake 5; PlayMiss] misses))).
Proof.
  intros t s' misses. subst s' misses. cbn [step].
  destruct (frame_summary s) as [H1 [H2 [_ [_ [_ H]]]]]. fold t in H.
  split; [exact H1 |]. split; [exact H2 |].
  destruct H as [H | [[Hr [Ht [Hr' [Hg [_ He]]]]] | H]].
  - now left.
  - right; left. repeat split; assumption.
  - right; right. destruct H as [Hr [Ht [Hr' [cues [He [_ Hc]]]]]].
    split; [exact Hr |]. split; [exact Ht |]. split; [exact Hr' |].
    rewrite He, Hc. reflexivity.
Qed.

(** *** Combo chimes over a session *)

Lemma chimes_app (a b : list Effect) : chimes (a ++ b) = chimes a ++ chimes b.
Proof.
  induction a as [| e a IH]; simpl; [reflexivity |].
  destruct e; simpl; rewrite ?IH; reflexivity.
Qed.

Lemma chimes_cues (E : list Effect) :
  forallb isMissCue E = true -> chimes E = [].
Proof.
  induction E as [| e E IH]; simpl; [reflexivity |].
  intro H. apply andb_true_iff in H. destruct H as [He HE].
  destruct e; simpl in *; try discriminate; auto.
Qed.

Lemma StronglySorted_snoc (l : list Z) (c : Z) :
  StronglySorted Z.lt l -> Forall (fun x => x < c) l ->
  StronglySorted Z.lt (l ++ [c]).
Proof.
  induction 1 as [| a l Hs IH Ha]; intro Hc; simpl.
  - repeat constructor.
  - inversion Hc as [| ? ? Hac Hlc]; subst. constructor; [now apply IH |].
    apply Forall_app. split; [exact Ha | now constructor].
Qed.

Lemma StronglySorted_NoDup (l : list Z) : StronglySorted Z.lt l -> NoDup l.
Proof.
  induction 1 as [| a l Hs IH Ha]; constructor; [| exact IH].
  intro Hin. rewrite Forall_forall in Ha. specialize (Ha a Hin). lia.
Qed.

Lemma chimesInOrder_same (s s' : GameLoop) :
  chimes (effects s') = chimes (effects s) ->
  lastComboMilestone s' = lastComboMilestone s ->
  comboBounded (gameState s') ->
  chimesInOrder s -> chimesInOrder s'.
Proof.
  intros He Hl Hb [_ [Hs Hf]]. unfold chimesInOrder.
  rewrite He, Hl. split; [exact Hb | split; assumption].
Qed.

Lemma missOnly_comboBounded (g g' : GameState) :
  missOnly g g' -> comboBounded g -> comboBounded g'.
Proof.
  unfold missOnly, comboBounded. intros [_ [_ [_ [H4 [_ H6]]]]] Hb. lia.
Qed.

Lemma step_chimesInOrder (s : GameLoop) (e : Event) :
  chimesInOrder s -> chimesInOrder (step s e).
Proof.
  intro H. pose proof H as [Hb [Hs Hf]]. destruct e; cbn [step].
  - apply (chimesInOrder_same s); auto.
  - destruct (frame_summary s) as [Hm [Hl [_ [_ [_ Hc]]]]].
    apply (chimesInOrder_same s); auto.
    + destruct Hc as [[_ E] | [[_ [_ [_ [_ [_ E]]]]] | [_ [_ [_ [cues [E [Hq _]]]]]]]];
        rewrite E; rewrite ?chimes_app, ?(chimes_cues _ Hq);
        simpl; rewrite ?app_nil_r; reflexivity.
    + exact (missOnly_comboBounded _ _ Hm Hb).
  - destruct (handleKeyPress_cases key s)
      as [[_ E] | [[_ [_ E]] | [l [i [n [_ [_ [_ [_ [Hi [Hw E]]]]]]]]]]].
    + now rewrite E.
    + rewrite E. apply (chimesInOrder_same s); auto.
    + cbv zeta in E. destruct E as [[Hm E] | [Hm E]].
      { rewrite E. apply (chimesInOrder_same s); auto.
        - unfold missState. proj_simpl.
          rewrite chimes_app. simpl. now rewrite app_nil_r.
        - unfold missState. proj_simpl.
          now apply processHit_comboBounded. }
      set (s1 := hitState s key i n) in *.
      assert (H1 : chimesInOrder s1).
      { apply (chimesInOrder_same s); auto.
        - subst s1. unfold hitState. proj_simpl.
          rewrite chimes_app. simpl. now rewrite app_nil_r.
        - subst s1. unfold hitState. proj_simpl.
          now apply processHit_comboBounded. }
      assert (Hcombo : getCombo (gameState s1) <> 0).
      { subst s1. unfold hitState, getCombo. proj_simpl.
        rewrite (processHit_combo_hit _ _ Hm).
        unfold comboBounded in Hb. clear - Hb. lia. }
      destruct E as [[_ E] | [[H0 _] | [Hin [Hlt E]]]];
        [now rewrite E | contradiction |].
      rewrite E. destruct H1 as [Hb1 [Hs1 Hf1]].
      assert (Hl1 : lastComboMilestone s1 = lastComboMilestone s)
        by reflexivity.
      unfold chimesInOrder. proj_simpl.
      split; [exact Hb1 |]. rewrite chimes_app. cbn [chimes].
      split.
      * apply StronglySorted_snoc; [exact Hs1 |].
        eapply Forall_impl; [| exact Hf1].
        intros c [_ Hc]. cbv beta in Hc. lia.
      * apply Forall_app. split.
        -- eapply Forall_impl; [| exact Hf1].
           intros c [Hc1 Hc2]. cbv beta in *. split; [exact Hc1 | lia].
        -- constructor; [| constructor]. split; [exact Hin | lia].
  - apply (chimesInOrder_same s); auto.
  - destruct (feedbackTimeout s); [| exact H].
    apply (chimesInOrder_same s); auto.
  - apply (chimesInOrder_same s); auto.
Qed.

Lemma run_chimesInOrder (es : list Event) (s : GameLoop) :
  chimesInOrder s -> chimesInOrder (run s es).
Proof.
  revert s. induction es as [| e es IH]; intros s H.
  - exact H.
  - change (run s (e :: es)) with (run (step s e) es).
    apply IH. now apply step_chimesInOrder.
Qed.

Lemma chimesInOrder_start (s : GameLoop) :
  comboBounded (gameState s) -> chimes (effects s) = [] -> chimesInOrder s.
Proof.
  intros Hb He. unfold chimesInOrder. rewrite He.
  repeat split; try apply Hb; constructor.
Qed.

(** X16.  In a session that starts with a combo in range and no chime
    played, the chimes played so far are milestones (10, 20, 50 or 100) in
    strictly increasing order, whatever the events: each milestone chimes
    at most once in the whole session, and there are at most four chimes. *)
Theorem chimes_once_per_session (s : GameLoop) (es : list Event) :
  comboBounded (gameState s) -> chimes (effects s) = [] ->
  let cs := chimes (effects (run s es)) in
  StronglySorted Z.lt cs /\ Forall (fun c => In c milestones) cs /\
  NoDup cs /\ (List.length cs <= 4)%nat.
Proof.
  intros Hb He cs.
  destruct (run_chimesInOrder es s (chimesInOrder_start s Hb He))
    as [_ [Hs Hf]]. fold cs in Hs, Hf.
  assert (Hm : Forall (fun c => In c milestones) cs).
  { eapply Forall_impl; [| exact Hf]. now intros c [Hc _]. }
  pose proof (StronglySorted_NoDup cs Hs) as Hnd.
  repeat split; try assumption.
  change 4%nat with (List.length milestones).
  apply NoDup_incl_length; [exact Hnd |].
  intros c Hc. rewrite Forall_forall in Hm. now apply Hm.
Qed.

Lemma chimes_once_per_session_witness :
  let s := session (laneZeroChart 21) in
  comboBounded (gameState s) /\ chimes (effects s) = [] /\
  NoDup (chimes (effects (run s (taps 21)))).
Proof.
  intro s.
  assert (Hb : comboBounded (gameState s))
    by (unfold comboBounded; vm_compute; split; discriminate).
  assert (He : chimes (effects s) = []) by (vm_compute; reflexivity).
  split; [exact Hb |]. split; [exact He |].
  exact (proj1 (proj2 (proj2 (chimes_once_per_session s (taps 21) Hb He)))).
Defined.

(** X17.  Every chime the loop asks for in such a session plays the buffer
    stored under that very milestone, once the sound effects have been
    generated; before they are generated no request plays anything. *)
Theorem chime_matches_milestone (s : GameLoop) (es : list Event) :
  comboBounded (gameState s) -> chimes (effects s) = [] ->
  Forall (fun c => Sfx.playComboChime (Sfx.generateSFX Sfx.new) c = Some c)
         (chimes (effects (run s es))) /\
  (forall c, Sfx.playComboChime Sfx.new c = None).
Proof.
  intros Hb He. split.
  - destruct (run_chimesInOrder es s (chimesInOrder_start s Hb He))
      as [_ [_ Hf]].
    eapply Forall_impl; [| exact Hf].
    intros c [Hc _]. unfold milestones in Hc. simpl in Hc.
    destruct Hc as [<- | [<- | [<- | [<- | []]]]]; reflexivity.
  - intro c. unfold Sfx.playComboChime, Sfx.getBuffer. simpl.
    destruct (100 <=? c), (50 <=? c), (20 <=? c), (10 <=? c); reflexivity.
Qed.

Lemma chime_matches_milestone_witness :
  let s := session (laneZeroChart 21) in
  comboBounded (gameState s) /\ chimes (effects s) = [] /\
  Forall (fun c => Sfx.playComboChime (Sfx.generateSFX Sfx.new) c = Some c)
         (chimes (effects (run s (taps 21)))).
Proof.
  intro s.
  assert (Hb : comboBounded (gameState s))
    by (unfold comboBounded; vm_compute; split; discriminate).
  assert (He : chimes (effects s) = []) by (vm_compute; reflexivity).
  split; [exact Hb |]. split; [exact He |].
  exact (proj1 (chime_matches_milestone s (taps 21) Hb He)).
Defined.

(** *** Reset for a replay *)

Lemma judgedCount_cleared (c : NoteChart) :
  judgedCount (map (fun n => setHit n false) c) = 0.
Proof.
  unfold judgedCount. induction c as [| n c IH]; simpl; [reflexivity |].
  exact IH.
Qed.

(** X18.  [GameLoop.reset] zeroes the accumulator and the milestone
    tracker, clears the feedback and its timer, and clears the judged flag
    of every note while keeping the notes, their lanes and their times in
    place, so that judgments and judged notes are in step again; it hides
    the end screen and leaves the running flag and the audio engine as
    they are. *)
Theorem reset_prepares_replay (s : GameLoop) :
  let s' := exec Loop.reset s in
  gameState s' = Scoring.reset /\ lastComboMilestone s' = 0 /\
  currentFeedback s' = None /\ feedbackTimeout s' = false /\
  List.length (chart s') = List.length (chart s) /\
  (forall i n, nth_error (chart s) i = Some n ->
               nth_error (chart s') i = Some (setHit n false)) /\
  judgedCount (chart s') = 0 /\ accounted s' /\
  effects s' = effects s ++ [EndScreenHide] /\
  isRunning s' = isRunning s /\ audioEngine s' = audioEngine s /\
  chartDuration s' = chartDuration s.
Proof.
  intro s'. subst s'. unfold exec, Loop.reset.
  repeat mstep. cbn [snd emit modify]. proj_simpl.
  repeat (split; [reflexivity |]).
  split; [apply length_map |].
  split; [intros i n Hi; now rewrite nth_error_map, Hi |].
  split; [apply judgedCount_cleared |].
  split; [| repeat split].
  unfold accounted. proj_simpl. now rewrite judgedCount_cleared.
Qed.

(** *** A session whose audio source has ended *)

Lemma step_keeps_stuck (s : GameLoop) (e : Event) :
  isRunning s = true -> Audio.isPlaying (audioEngine s) = false ->
  (0 <= chartDuration s)%Q ->
  isRunning (step s e) = true /\
  Audio.isPlaying (audioEngine (step s e)) = false /\
  (0 <= chartDuration (step s e))%Q.
Proof.
  intros Hr Hp Hd. destruct e; cbn [step]; proj_simpl.
  - repeat split; try assumption.
    now apply (apply_keeps_silent _ (Audio.OpAdvance d)).
  - pose proof (getSongTime_not_playing _ Hp) as Ht.
    destruct (frame_summary s) as [_ [_ [Ha [Hc [_ H]]]]].
    rewrite Ha, Hc. split; [| split; assumption].
    destruct H as [[H _] | [[_ [H _]] | [_ [_ [H _]]]]].
    + congruence.
    + rewrite Ht in H. exfalso. lra.
    + exact H.
  - destruct (handleKeyPress_keeps key s) as [H1 [H2 [H3 _]]].
    rewrite H1, H2, H3. repeat split; assumption.
  - repeat split; assumption.
  - destruct (feedbackTimeout s); repeat split; assumption.
  - repeat split; try assumption.
    now apply (apply_keeps_silent _ Audio.OpEnded).
Qed.

Lemma run_keeps_stuck (es : list Event) (s : GameLoop) :
  isRunning s = true -> Audio.isPlaying (audioEngine s) = false ->
  (0 <= chartDuration s)%Q ->
  isRunning (run s es) = true /\
  Audio.isPlaying (audioEngine (run s es)) = false.
Proof.
  revert s. induction es as [| e es IH]; intros s Hr Hp Hd.
  - split; assumption.
  - change (run s (e :: es)) with (run (step s e) es).
    destruct (step_keeps_stuck s e Hr Hp Hd) as [H1 [H2 H3]].
    now apply IH.
Qed.

(** X19.  When the audio source reports its end while the session is
    running and not paused, the song time reads 0 from then on, and since
    the end of the session is detected from the song time alone, no
    sequence of frames, presses and clock advances ends the session any
    more (for a chart duration that is not negative): the loop keeps
    running. *)
Theorem session_cannot_end_after_source_ended (s : GameLoop)
    (es : list Event) :
  isRunning s = true -> Audio.isPaused (audioEngine s) = false ->
  (0 <= chartDuration s)%Q ->
  let s' := run s (SongEnded :: es) in
  isRunning s' = true /\ Audio.getSongTime (audioEngine s') = 0%Q.
Proof.
  intros Hr Hq Hd s'. subst s'.
  change (run s (SongEnded :: es)) with (run (step s SongEnded) es).
  assert (Hp : Audio.isPlaying (audioEngine (step s SongEnded)) = false).
  { cbn [step]. proj_simpl. unfold Audio.onended. rewrite Hq.
    destruct (Audio.isPlaying (audioEngine s)) eqn:E; simpl;
      [reflexivity | exact E]. }
  destruct (run_keeps_stuck es (step s SongEnded) Hr Hp Hd) as [H1 H2].
  split; [exact H1 | now apply getSongTime_not_playing].
Qed.

Lemma session_cannot_end_after_source_ended_witness :
  let s := run (session [mkNote 0 70 false]) [Advance 60] in
  isRunning s = true /\ Audio.isPaused (audioEngine s) = false /\
  (0 <= chartDuration s)%Q /\
  isRunning (run s [SongEnded; Advance 30; Frame]) = true.
Proof.
  intro s.
  assert (Hr : isRunning s = true) by (vm_compute; reflexivity).
  assert (Hq : Audio.isPaused (audioEngine s) = false)
    by (vm_compute; reflexivity).
  assert (Hd : (0 <= chartDuration s)%Q) by (vm_compute; discriminate).
  split; [exact Hr |]. split; [exact Hq |]. split; [exact Hd |].
  exact (proj1 (session_cannot_end_after_source_ended
                  s [Advance 30; Frame] Hr Hq Hd)).
Defined.

(** *** A chart that is already judged *)

Lemma allJudged_nth (c : NoteChart) (i : nat) (n : Note) :
  allJudged c = true -> nth_error c i = Some n -> hit n = true.
Proof.
  unfold allJudged. intros H Hi. rewrite forallb_forall in H.
  apply H. exact (nth_error_In _ _ Hi).
Qed.

Lemma checkMissedNote_judged (t : Q) (i : nat) (s : GameLoop) :
  allJudged (chart s) = true -> snd (checkMissedNote t i s) = s.
Proof.
  intro H. unfold checkMissedNote. rewrite bind_get.
  destruct (nth_error (chart s) i) as [note |] eqn:Ei; [| reflexivity].
  now rewrite (allJudged_nth _ _ _ H Ei).
Qed.

Lemma forEachIndex_judged (t : Q) (idxs : list nat) (s : GameLoop) :
  allJudged (chart s) = true ->
  snd (forEachIndex idxs (checkMissedNote t) s) = s.
Proof.
  intro H. induction idxs as [| i idxs IH]; simpl; [reflexivity |].
  now rewrite bind_exec, (checkMissedNote_judged t i s H).
Qed.

Lemma step_judged (s : GameLoop) (e : Event) :
  allJudged (chart s) = true ->
  chart (step s e) = chart s /\ gameState (step s e) = gameState s.
Proof.
  intro H. destruct e; cbn [step]; proj_simpl; try (split; reflexivity).
  - destruct (isRunning s) eqn:Hr;
      [| rewrite (loop_not_running s Hr); split; reflexivity].
    destruct (Qlt_le_dec (chartDuration s)
                         (Audio.getSongTime (audioEngine s))) as [Ht | Ht].
    + rewrite (loop_over s Hr Ht). split; reflexivity.
    + rewrite (loop_render s Hr Ht). unfold checkMissedNotes.
      rewrite bind_get, forEachIndex_judged by exact H.
      split; reflexivity.
  - destruct (handleKeyPress_cases key s)
      as [[_ E] | [[_ [_ E]] | [l [i [n [_ [_ [_ [_ [Hi [Hw _]]]]]]]]]]].
    + rewrite E. split; reflexivity.
    + rewrite E. split; reflexivity.
    + apply inWindow_spec in Hw. destruct Hw as [_ [Hh _]].
      rewrite (allJudged_nth _ _ _ H Hi) in Hh. discriminate Hh.
  - destruct (feedbackTimeout s); split; reflexivity.
Qed.

Lemma run_judged (es : list Event) (s : GameLoop) :
  allJudged (chart s) = true ->
  chart (run s es) = chart s /\ gameState (run s es) = gameState s.
Proof.
  revert s. induction es as [| e es IH]; intros s H.
  - split; reflexivity.
  - change (run s (e :: es)) with (run (step s e) es).
    destruct (step_judged s e H) as [H1 H2].
    assert (H' : allJudged (chart (step s e)) = true) by now rewrite H1.
    destruct (IH _ H') as [K1 K2]. split; congruence.
Qed.

(** X20.  [startGameplay] resets the accumulator but hands the chart array
    to the new loop as it is, judged flags included.  So when every note
    of the chart is already judged, as after a session that was played to
    its end on the same array, the new session starts and runs, but no
    frame and no press ever judges a note: the accumulator stays at its
    reset value, score 0, whatever the player does. *)
Theorem replay_of_judged_chart_scores_nothing (ctx : Audio.AudioContext)
    (loading : Q) (engine : Audio.WebAudioEngine)
    (inp : Input.KeyboardInput) (front : NoteChart) (lastNote : Note) :
  let c := front ++ [lastNote] in
  allJudged c = true ->
  exists l,
    Main.startGameplay ctx loading engine inp c
      = Main.mkGame Main.ScreenPlaying (Some l) /\
    chart l = c /\ gameState l = Scoring.reset /\
    forall es,
      chart (run l es) = c /\ gameState (run l es) = Scoring.reset /\
      getScore (gameState (run l es)) = 0.
Proof.
  intros c Hj. unfold Main.startGameplay, Loop.new. subst c.
  rewrite index_last.
  match goal with
  | |- context [exec loop ?x] => set (l0 := x)
  end.
  assert (H0 : allJudged (chart l0) = true) by exact Hj.
  destruct (step_judged l0 Frame H0) as [H1 H2].
  cbn [step] in H1, H2.
  exists (exec loop l0). split; [reflexivity |].
  split; [exact H1 |]. split; [exact H2 |].
  intro es.
  assert (H' : allJudged (chart (exec loop l0)) = true)
    by (rewrite H1; exact H0).
  destruct (run_judged es _ H') as [K1 K2].
  rewrite K1, K2, H1, H2. repeat split.
Qed.

Lemma replay_of_judged_chart_scores_nothing_witness :
  let first := run (session [mkNote 0 1 false; mkNote 1 2 false])
                   [Advance 1; KeyDown "a"; KeyUp "a"; Advance 1.5; Frame;
                    Advance 2; Frame] in
  isRunning first = false /\ getScore (gameState first) = 100 /\
  chart first = [mkNote 0 1 true] ++ [mkNote 1 2 true] /\
  exists l,
    Main.startGameplay ctx0 0 (audioEngine first) (input first)
      ([mkNote 0 1 true] ++ [mkNote 1 2 true])
      = Main.mkGame Main.ScreenPlaying (Some l) /\
    getScore (gameState (run l [Advance 1; KeyDown "a"; Frame])) = 0.
Proof.
  intro first.
  split; [vm_compute; reflexivity |].
  split; [vm_compute; reflexivity |].
  split; [vm_compute; reflexivity |].
  destruct (replay_of_judged_chart_scores_nothing ctx0 0 (audioEngine first)
              (input first) [mkNote 0 1 true] (mkNote 1 2 true) eq_refl)
    as [l [H1 [_ [_ H2]]]].
  exists l. split; [exact H1 |].
  exact (proj2 (proj2 (H2 [Advance 1; KeyDown "a"; Frame]))).
Defined.

End SessionFacts.

(** ** The key filter of the game and the layout of a frame *)

Section FrontEndFacts.

Import Loop Runs.

Lemma laneKey_iff (k : string) :
  existsb (String.eqb k) Main.laneKeys = true <-> Input.keyToLane k <> None.
Proof.
  unfold Main.laneKeys, Input.keyToLane. simpl.
  destruct (String.eqb k "a"), (String.eqb k "s"), (String.eqb k "d"),
    (String.eqb k "f"); simpl; split; intro H; congruence.
Qed.

Lemma keyToLane_range (k : string) (l : Z) :
  Input.keyToLane k = Some l -> 0 <= l <= 3.
Proof.
  unfold Input.keyToLane.
  destruct (String.eqb k "a"); [intro H; injection H as <-; lia |].
  destruct (String.eqb k "s"); [intro H; injection H as <-; lia |].
  destruct (String.eqb k "d"); [intro H; injection H as <-; lia |].
  destruct (String.eqb k "f"); [intro H; injection H as <-; lia |].
  discriminate.
Qed.

(** X21.  While a session is on the playing screen, the game forwards a
    key-down to the loop exactly when KeyboardInput maps the key to a lane,
    letter case aside, and that lane is one of 0 to 3; it forwards the
    lower-case key, for which the lane is the same.  Any other key, and any
    key outside the playing screen or without a loop, changes nothing. *)
Theorem game_forwards_the_lane_keys (eventKey : string)
    (g : Main.KeyHeroGame) :
  (forall l,
     Main.currentScreen g = Main.ScreenPlaying ->
     Main.gameLoop g = Some l ->
     match Input.getLane eventKey with
     | Some lane =>
         0 <= lane <= 3 /\
         Input.getLane (Input.toLowerCase eventKey) = Some lane /\
         Main.onKeyDown eventKey g
         = Main.mkGame Main.ScreenPlaying
             (Some (exec (handleKeyPress (Input.toLowerCase eventKey)) l))
     | None => Main.onKeyDown eventKey g = g /\ Main.onKeyUp eventKey g = g
     end) /\
  (Main.isPlayingScreen (Main.currentScreen g) = false \/
   Main.gameLoop g = None ->
   Main.onKeyDown eventKey g = g /\ Main.onKeyUp eventKey g = g).
Proof.
  split.
  - intros l Hs Hl. unfold Main.onKeyDown, Main.onKeyUp, Input.getLane.
    rewrite Hs, Hl. simpl Main.isPlayingScreen.
    destruct (Input.keyToLane (Input.toLowerCase eventKey)) as [lane |] eqn:Ek.
    + assert (Hk : existsb (String.eqb (Input.toLowerCase eventKey))
                           Main.laneKeys = true).
      { apply laneKey_iff. congruence. }
      rewrite Hk. simpl. split; [now apply (keyToLane_range _ _ Ek) |].
      split; [now rewrite toLowerCase_idem | reflexivity].
    + assert (Hk : existsb (String.eqb (Input.toLowerCase eventKey))
                           Main.laneKeys = false).
      { destruct (existsb _ Main.laneKeys) eqn:E; [| reflexivity].
        apply laneKey_iff in E. contradiction. }
      rewrite Hk. simpl. split; reflexivity.
  - intros H. unfold Main.onKeyDown, Main.onKeyUp.
    destruct H as [H | H]; rewrite H.
    + rewrite andb_false_r. split; reflexivity.
    + destruct (_ && _); split; reflexivity.
Qed.





(** ** The tail of a chart *)




End FrontEndFacts.
